(** * Weighted interval scheduling (app.py): model and verification

    The scheduler of [app.py] sorts the tasks by end time, computes for every
    task the last earlier task that does not overlap it (a binary search over
    the end times), fills a table of best profits and walks the table
    backwards to recover the chosen tasks.

    The model keeps the shape of the Python code: lists are subscripted with
    Python's rules (a negative subscript counts from the end, a subscript out
    of range raises [IndexError]), the two [for] loops thread their lists as
    state, and the [while] loop of the backtracking phase is bounded by fuel. *)

From Stdlib Require Import ZArith Lia.
From stdpp Require Import prelude list sorting strings gmap.

Local Open Scope Z_scope.

(** ** Outcomes of a Python computation *)

Inductive outcome (A : Type) : Type :=
  | Returned (a : A)
  | IndexError
  | OutOfFuel.
Arguments Returned {A} a.
Arguments IndexError {A}.
Arguments OutOfFuel {A}.

Global Instance outcome_ret : MRet outcome := λ A a, Returned a.
Global Instance outcome_bind : MBind outcome := λ A B f m,
  match m with
  | Returned a => f a
  | IndexError => IndexError
  | OutOfFuel => OutOfFuel
  end.

(** ** Python lists *)

(** [l[i]]: a negative subscript counts from the end of the list, anything
    outside [-len(l) .. len(l)-1] raises [IndexError]. *)
Definition py_norm (len : nat) (i : Z) : Z :=
  if decide (i < 0) then i + Z.of_nat len else i.

Definition py_index {A} (l : list A) (i : Z) : outcome A :=
  let j := py_norm (length l) i in
  if decide (0 ≤ j) then
    match l !! Z.to_nat j with
    | Some x => Returned x
    | None => IndexError
    end
  else IndexError.

(** [l[i] = v] *)
Definition py_setitem {A} (l : list A) (i : Z) (v : A) : outcome (list A) :=
  let j := py_norm (length l) i in
  if decide (0 ≤ j < Z.of_nat (length l)) then Returned (<[Z.to_nat j := v]> l)
  else IndexError.

(** [range(n)] *)
Definition range (n : nat) : list Z := Z.of_nat <$> seq 0 n.

(** [for i in idxs: s = body(i, s)] *)
Fixpoint for_loop {St : Type} (body : Z → St → outcome St) (idxs : list Z)
    (s : St) : outcome St :=
  match idxs with
  | [] => Returned s
  | i :: idxs' => s' ← body i s; for_loop body idxs' s'
  end.

(** ** Tasks *)

Record Task : Type := mkTask {
  id : Z;
  name : string;
  start_time : Z;
  end_time : Z;
  profit : Z
}.

Global Instance Task_eq_dec : EqDecision Task.
Proof. solve_decision. Defined.

(** ** [sorted(tasks, key=lambda t: t.end_time)]

    Python's [sorted] is stable.  Insertion from the right, placing a task in
    front of the first task whose key is not smaller, is a stable sort: the
    task that came first in the input stays in front of equal keys. *)
Fixpoint insert_by_end (t : Task) (l : list Task) : list Task :=
  match l with
  | [] => [t]
  | u :: l' =>
      if decide (end_time t ≤ end_time u) then t :: u :: l'
      else u :: insert_by_end t l'
  end.

Definition sorted_by_end (tasks : list Task) : list Task :=
  foldr insert_by_end [] tasks.

(** ** [bisect.bisect_right]

    The loop of the standard library's [bisect_right(a, x)]:
    [while lo < hi: mid = (lo + hi) // 2; if x < a[mid]: hi = mid else: lo = mid + 1].
    Every iteration shrinks [hi - lo], so [len(a)] units of fuel are never
    exhausted. *)
Fixpoint bisect_loop (fuel : nat) (a : list Z) (x : Z) (lo hi : nat) : nat :=
  match fuel with
  | O => lo
  | S fuel' =>
      if decide (lo < hi)%nat then
        let mid := ((lo + hi) `div` 2)%nat in
        match a !! mid with
        | Some am =>
            if decide (x < am) then bisect_loop fuel' a x lo mid
            else bisect_loop fuel' a x (S mid) hi
        | None => lo
        end
      else lo
  end.

Definition bisect_right (a : list Z) (x : Z) : Z :=
  Z.of_nat (bisect_loop (length a) a x 0 (length a)).

(** ** The scheduler *)

(** Body of the loop that fills [p]:
    [idx = bisect_right(end_times, tasks_sorted[i].start_time) - 1; p.append(idx)] *)
Definition p_body (tasks_sorted : list Task) (end_times : list Z)
    (i : Z) (p : list Z) : outcome (list Z) :=
  t ← py_index tasks_sorted i;
  mret (p ++ [bisect_right end_times (start_time t) - 1]).

(** [tasks_sorted[i].profit + (dp[p[i]] if p[i] >= 0 else 0)] *)
Definition include_profit (tasks_sorted : list Task) (p dp : list Z) (i : Z)
    : outcome Z :=
  t ← py_index tasks_sorted i;
  pi ← py_index p i;
  prev ← (if decide (0 ≤ pi) then py_index dp pi else mret 0);
  mret (profit t + prev).

(** [dp[i - 1] if i > 0 else 0] *)
Definition exclude_profit (dp : list Z) (i : Z) : outcome Z :=
  if decide (0 < i) then py_index dp (i - 1) else mret 0.

(** Body of the loop that fills [dp] and [choose]. *)
Definition dp_body (tasks_sorted : list Task) (p : list Z)
    (i : Z) (st : list Z * list bool) : outcome (list Z * list bool) :=
  let '(dp, choose) := st in
  inc ← include_profit tasks_sorted p dp i;
  exc ← exclude_profit dp i;
  if decide (exc < inc) then
    dp' ← py_setitem dp i inc;
    choose' ← py_setitem choose i true;
    mret (dp', choose')
  else
    dp' ← py_setitem dp i exc;
    choose' ← py_setitem choose i false;
    mret (dp', choose').

(** One iteration of the backtracking loop, from index [i] with the tasks
    collected so far; the result is the next index and the new list. *)
Definition backtrack_step (tasks_sorted : list Task) (p dp : list Z)
    (i : Z) (selected : list Task) : outcome (Z * list Task) :=
  inc ← include_profit tasks_sorted p dp i;
  exc ← exclude_profit dp i;
  if decide (exc < inc) then
    t ← py_index tasks_sorted i;
    i' ← py_index p i;
    mret (i', selected ++ [t])
  else mret (i - 1, selected).

(** [while i >= 0: ...]; each test of the loop condition uses one unit of
    fuel. *)
Fixpoint backtrack (fuel : nat) (tasks_sorted : list Task) (p dp : list Z)
    (i : Z) (selected : list Task) : outcome (list Task) :=
  match fuel with
  | O => OutOfFuel
  | S fuel' =>
      if decide (0 ≤ i) then
        '(i', selected') ← backtrack_step tasks_sorted p dp i selected;
        backtrack fuel' tasks_sorted p dp i' selected'
      else mret selected
  end.

(** The indices at which the backtracking loop runs its body, in the order of
    the run (a ghost copy of [backtrack] that keeps the indices). *)
Fixpoint backtrack_visits (fuel : nat) (tasks_sorted : list Task) (p dp : list Z)
    (i : Z) (selected : list Task) : list Z :=
  match fuel with
  | O => []
  | S fuel' =>
      if decide (0 ≤ i) then
        match backtrack_step tasks_sorted p dp i selected with
        | Returned (i', selected') =>
            i :: backtrack_visits fuel' tasks_sorted p dp i' selected'
        | _ => [i]
        end
      else []
  end.

Definition p_phase (tasks_sorted : list Task) : outcome (list Z) :=
  for_loop (p_body tasks_sorted (end_time <$> tasks_sorted))
           (range (length tasks_sorted)) [].

Definition dp_phase (tasks_sorted : list Task) (p : list Z)
    : outcome (list Z * list bool) :=
  let n := length tasks_sorted in
  for_loop (dp_body tasks_sorted p) (range n) (replicate n 0, replicate n false).

Definition weighted_interval_scheduling (fuel : nat) (tasks : list Task)
    : outcome (list Task * Z) :=
  match tasks with
  | [] => mret ([], 0)
  | _ :: _ =>
      let tasks_sorted := sorted_by_end tasks in
      let n := length tasks_sorted in
      p ← p_phase tasks_sorted;
      '(dp, choose) ← dp_phase tasks_sorted p;
      selected ← backtrack fuel tasks_sorted p dp (Z.of_nat n - 1) [];
      total_profit ← py_index dp (-1);
      mret (reverse selected, total_profit)
  end.

(** ** Notions of the specification *)

(** A task is well formed when it ends after it starts. *)
Definition well_formed (t : Task) : Prop := start_time t < end_time t.

(** Two tasks do not conflict when one ends no later than the other starts. *)
Definition compatible (a b : Task) : Prop :=
  end_time a ≤ start_time b ∨ end_time b ≤ start_time a.

Global Instance compatible_dec a b : Decision (compatible a b).
Proof. unfold compatible. apply _. Defined.

(** Every two tasks at different positions of the list are compatible. *)
Definition non_conflicting (s : list Task) : Prop := ForallOrdPairs compatible s.

Definition sum_profit (s : list Task) : Z := foldr (λ t acc, profit t + acc) 0 s.

Definition end_le (a b : Task) : Prop := end_time a ≤ end_time b.

(** ** Notions of the proofs *)

(** A list of integers in ascending (non-strict) order. *)
Definition ascending (a : list Z) : Prop :=
  ∀ (i j : nat) (x y : Z), (i ≤ j)%nat → a !! i = Some x → a !! j = Some y → x ≤ y.

(** [r] splits [a] for [x]: everything before [r] is at most [x] and
    everything from [r] on is greater. *)
Definition splits (a : list Z) (x : Z) (r : nat) : Prop :=
  (∀ (j : nat) (y : Z), (j < r)%nat → a !! j = Some y → y ≤ x) ∧
  (∀ (j : nat) (y : Z), (r ≤ j)%nat → a !! j = Some y → x < y).

(** The number of tasks of [ts] that end no later than [t] starts: one more
    than the entry of [p] for [t]. *)
Definition prefix_len (ts : list Task) (t : Task) : nat :=
  let a := end_time <$> ts in
  bisect_loop (length a) a (start_time t) 0 (length a).

Definition p_of (ts : list Task) : list Z :=
  (λ t, bisect_right (end_time <$> ts) (start_time t) - 1) <$> ts.

(** [dpv dp k] is the entry of the table for the first [k] tasks: [dp[k-1]],
    and [0] when there is no task. *)
Definition dpv (dp : list Z) (k : nat) : Z :=
  match k with
  | O => 0
  | S j => default 0 (dp !! j)
  end.

(** Value of [include_profit] and [exclude_profit] at the task [t]. *)
Definition include_val (ts : list Task) (dp : list Z) (t : Task) : Z :=
  profit t + dpv dp (prefix_len ts t).

(** The first [k] entries of [dp] and [choose] obey the recurrence. *)
Definition table_ok (ts : list Task) (k : nat) (st : list Z * list bool) : Prop :=
  length st.1 = length ts ∧ length st.2 = length ts ∧
  ∀ (i : nat) (t : Task), (i < k)%nat → ts !! i = Some t →
    dpv st.1 (S i) = Z.max (include_val ts st.1 t) (dpv st.1 i) ∧
    st.2 !! i = Some (bool_decide (dpv st.1 i < include_val ts st.1 t)).

(** The task the loop appends when it runs its body at index [i], if any. *)
Definition appended_at (ts : list Task) (p dp : list Z) (i : Z) : option Task :=
  match include_profit ts p dp i, exclude_profit dp i with
  | Returned inc, Returned exc =>
      if decide (exc < inc) then ts !! Z.to_nat i else None
  | _, _ => None
  end.

(** A run of the loop from the first [k] tasks: the tasks appended, in the
    order in which they are appended, and the indices visited. *)
Inductive bt_run (ts : list Task) (dp : list Z)
    : nat → list Task → list Z → Prop :=
  | bt_done : bt_run ts dp O [] []
  | bt_take (i : nat) (t : Task) (sel : list Task) (vis : list Z) :
      ts !! i = Some t →
      dpv dp i < include_val ts dp t →
      bt_run ts dp (prefix_len ts t) sel vis →
      bt_run ts dp (S i) (t :: sel) (Z.of_nat i :: vis)
  | bt_skip (i : nat) (t : Task) (sel : list Task) (vis : list Z) :
      ts !! i = Some t →
      ¬ dpv dp i < include_val ts dp t →
      bt_run ts dp i sel vis →
      bt_run ts dp (S i) sel (Z.of_nat i :: vis).

(** ** Sample inputs *)

Definition T (i s e w : Z) : Task := mkTask i "t" s e w.

Definition demo_tasks : list Task :=
  [T 7 3 8 4; T 7 0 3 (-2); T 9 0 5 6; T 4 5 9 0; T 5 8 12 3].

(** Two tasks with the same end time and the same profit that overlap. *)
Definition tie_a : Task := T 1 0 5 3.
Definition tie_b : Task := T 2 1 5 3.

(** A short task followed by a long profitable one that overlaps it. *)
Definition skip_a : Task := T 1 0 1 1.
Definition skip_b : Task := T 2 0 10 100.

(** ** The task store and the request handlers

    The handlers of [app.py] read a form, check it and run one SQL statement
    on the table [tasks].  The table is modelled by its rows, in order of
    insertion, and the counter that [AUTOINCREMENT] keeps; a statement
    updates this state or fails when an integer does not fit SQLite's 64-bit
    column or the ids are used up.  Failures of the environment (a locked or
    full disk) are not modelled.  The answer of a [SELECT ... ORDER BY] is
    taken as an input of the handler that reads it, constrained by the
    ordering the query asks for, since SQL leaves the order of ties open. *)

Record Row : Type := mkRow {
  row_id : Z;
  row_name : string;
  row_start_time : Z;
  row_end_time : Z;
  row_profit : Z
}.

Global Instance Row_eq_dec : EqDecision Row.
Proof. solve_decision. Defined.

Record Table : Type := mkTable {
  table_rows : list Row;
  table_seq : Z
}.

(** What a request ends in: a response, or one of the exceptions the code
    lets escape (a missing form field, a field that is not an integer, an
    integer too large for SQLite, no id left). *)
Inductive http (A : Type) : Type :=
  | Responded (a : A)
  | BadRequest
  | ValueError
  | OverflowError
  | DatabaseFull.
Arguments Responded {A} a.
Arguments BadRequest {A}.
Arguments ValueError {A}.
Arguments OverflowError {A}.
Arguments DatabaseFull {A}.

Global Instance http_ret : MRet http := λ A a, Responded a.
Global Instance http_bind : MBind http := λ A B f m,
  match m with
  | Responded a => f a
  | BadRequest => BadRequest
  | ValueError => ValueError
  | OverflowError => OverflowError
  | DatabaseFull => DatabaseFull
  end.

(** [init_db]: [CREATE TABLE IF NOT EXISTS tasks (id INTEGER PRIMARY KEY
    AUTOINCREMENT, ...)]; an existing table is kept. *)
Definition init_db (existing : option Table) : Table :=
  match existing with
  | Some db => db
  | None => mkTable [] 0
  end.

(** An integer parameter of a statement must fit a 64-bit column. *)
Definition sql_int (z : Z) : http Z :=
  if decide (- 2 ^ 63 ≤ z < 2 ^ 63) then mret z else OverflowError.

Definition max_id (rs : list Row) : Z :=
  foldr (λ r m, Z.max (row_id r) m) 0 rs.

(** [INSERT INTO tasks (name, start_time, end_time, profit) VALUES (?, ?, ?, ?)]:
    the new id is one more than the largest id the table has ever held. *)
Definition sql_insert (name : string) (start_time end_time profit : Z)
    (db : Table) : http Table :=
  _ ← sql_int start_time;
  _ ← sql_int end_time;
  _ ← sql_int profit;
  let new_id := Z.max (table_seq db) (max_id (table_rows db)) + 1 in
  if decide (new_id < 2 ^ 63) then
    mret (mkTable
            (table_rows db ++ [mkRow new_id name start_time end_time profit])
            new_id)
  else DatabaseFull.

(** [UPDATE tasks SET name = ?, start_time = ?, end_time = ?, profit = ?
    WHERE id = ?] *)
Definition sql_update (name : string) (start_time end_time profit task_id : Z)
    (db : Table) : http Table :=
  _ ← sql_int start_time;
  _ ← sql_int end_time;
  _ ← sql_int profit;
  _ ← sql_int task_id;
  mret (mkTable
          ((λ r, if decide (row_id r = task_id)
                 then mkRow (row_id r) name start_time end_time profit
                 else r) <$> table_rows db)
          (table_seq db)).

(** [DELETE FROM tasks WHERE id = ?] *)
Definition sql_delete (task_id : Z) (db : Table) : http Table :=
  _ ← sql_int task_id;
  mret (mkTable (filter (λ r, row_id r ≠ task_id) (table_rows db))
                (table_seq db)).

(** [SELECT * FROM tasks WHERE id = ?] followed by [fetchone()] *)
Definition sql_select_by_id (task_id : Z) (db : Table) : http (option Row) :=
  _ ← sql_int task_id;
  mret (head (filter (λ r, row_id r = task_id) (table_rows db))).



(** [url_for(...)] *)
Inductive endpoint : Type :=
  | url_add_task
  | url_view_tasks
  | url_edit_task (task_id : Z).

(** What a handler returns: [flash(message, category)] followed by
    [redirect(...)], or one of the templates with its arguments. *)
Inductive response : Type :=
  | redirect (flashed : string * string) (target : endpoint)
  | render_form (task : option Row) (form_action : endpoint) (page_title : string)
  | render_dashboard (tasks : list Row) (total_tasks : nat) (total_profit : Z)
  | render_tasks (tasks : list Row)
  | render_schedule (all_tasks : list Row) (selected_tasks : list Task)
      (optimal_profit : Z).

(** [request.form[key]] *)
Definition form_field (form : gmap string string) (key : string) : http string :=
  match form !! key with
  | Some v => mret v
  | None => BadRequest
  end.



(** [view_tasks], given the rows its query returned. *)
Definition view_tasks (tasks : list Row) : response := render_tasks tasks.


(** [delete_task] *)
Definition delete_task (task_id : Z) (db : Table) : http (Table * response) :=
  db' ← sql_delete task_id db;
  mret (db', redirect ("Task deleted successfully.", "success") url_view_tasks).

Section handlers.
(** Python's [int] on a string ([None] stands for [ValueError]) and
    [str.strip]. *)
Variable py_int : string → option Z.
Variable py_strip : string → string.

(** [int(request.form[key])] *)
Definition form_int (form : gmap string string) (key : string) : http Z :=
  v ← form_field form key;
  match py_int v with
  | Some z => mret z
  | None => ValueError
  end.

(** [add_task] *)
Definition add_task (method : string) (form : gmap string string) (db : Table)
    : http (Table * response) :=
  if decide (method = "POST") then
    raw_name ← form_field form "name";
    let name := py_strip raw_name in
    start_time ← form_int form "start_time";
    end_time ← form_int form "end_time";
    profit ← form_int form "profit";
    if decide (end_time ≤ start_time) then
      mret (db, redirect ("End time must be greater than start time.", "danger")
                         url_add_task)
    else
      db' ← sql_insert name start_time end_time profit db;
      mret (db', redirect ("Task added successfully.", "success") url_view_tasks)
  else mret (db, render_form None url_add_task "Add Task").

(** [edit_task] *)
Definition edit_task (task_id : Z) (method : string) (form : gmap string string)
    (db : Table) : http (Table * response) :=
  found ← sql_select_by_id task_id db;
  match found with
  | None => mret (db, redirect ("Task not found.", "warning") url_view_tasks)
  | Some task =>
      if decide (method = "POST") then
        raw_name ← form_field form "name";
        let name := py_strip raw_name in
        start_time ← form_int form "start_time";
        end_time ← form_int form "end_time";
        profit ← form_int form "profit";
        if decide (end_time ≤ start_time) then
          mret (db, redirect
                      ("End time must be greater than start time.", "danger")
                      (url_edit_task task_id))
        else
          db' ← sql_update name start_time end_time profit task_id db;
          mret (db', redirect ("Task updated successfully.", "success")
                              url_view_tasks)
      else mret (db, render_form (Some task) (url_edit_task task_id) "Edit Task")
  end.

(** A request that can change the table, and what the application does with
    it; a request that ends in an exception leaves the table as it was. *)
Inductive request : Type :=
  | AddTask (method : string) (form : gmap string string)
  | EditTask (task_id : Z) (method : string) (form : gmap string string)
  | DeleteTask (task_id : Z).

Definition handle (req : request) (db : Table) : http (Table * response) :=
  match req with
  | AddTask method form => add_task method form db
  | EditTask task_id method form => edit_task task_id method form db
  | DeleteTask task_id => delete_task task_id db
  end.

Definition table_after (req : request) (db : Table) : Table :=
  match handle req db with
  | Responded (db', _) => db'
  | _ => db
  end.

Definition serve (reqs : list request) (db : Table) : Table :=
  foldl (λ db req, table_after req db) db reqs.
End handlers.

(** A row is valid when it ends after it starts. *)
Definition row_ok (r : Row) : Prop := row_start_time r < row_end_time r.

(** Sample form and stand-ins for [int] and [strip]. *)
Definition demo_int (s : string) : option Z := Some (Z.of_nat (String.length s)).
Definition demo_strip (s : string) : string := s.
Definition demo_form : gmap string string :=
  {[ "name" := "review"; "start_time" := "a"; "end_time" := "abc";
     "profit" := "ab" ]}.

(** The same form with start and end exchanged. *)
Definition late_form : gmap string string :=
  {[ "name" := "review"; "start_time" := "abc"; "end_time" := "a";
     "profit" := "ab" ]}.

(** The table after [demo_form] was added to an empty one. *)
Definition demo_row : Row := mkRow 1 "review" 1 3 2.
Definition demo_table : Table := mkTable [demo_row] 1.

(** * Verification *)

(** ** Examples of the specification *)

Example schedule_empty : weighted_interval_scheduling 1 [] = Returned ([], 0).
Proof. reflexivity. Qed.

Example schedule_single :
  weighted_interval_scheduling 2 [T 1 0 10 5] = Returned ([T 1 0 10 5], 5).
Proof. vm_compute. reflexivity. Qed.

Example schedule_back_to_back :
  weighted_interval_scheduling 3 [T 1 0 5 3; T 2 5 10 4]
  = Returned ([T 1 0 5 3; T 2 5 10 4], 7).
Proof. vm_compute. reflexivity. Qed.

Example schedule_overlap :
  weighted_interval_scheduling 3 [T 1 0 10 5; T 2 5 15 6]
  = Returned ([T 2 5 15 6], 6).
Proof. vm_compute. reflexivity. Qed.

(** ** Subscripts in range *)

Lemma py_index_nat {A} (l : list A) (i : nat) (x : A) :
  l !! i = Some x → py_index l (Z.of_nat i) = Returned x.
Proof.
  intros Hl. unfold py_index, py_norm.
  destruct (decide (Z.of_nat i < 0)) as [?|_]; [lia|].
  destruct (decide (0 ≤ Z.of_nat i)) as [_|?]; [|lia].
  by rewrite Nat2Z.id, Hl.
Qed.

Lemma py_index_last {A} (l : list A) (x : A) :
  l !! pred (length l) = Some x → py_index l (-1) = Returned x.
Proof.
  intros Hl. assert (pred (length l) < length l)%nat by eauto using lookup_lt_Some.
  unfold py_index, py_norm.
  destruct (decide (-1 < 0)) as [_|?]; [|lia].
  destruct (decide (0 ≤ -1 + Z.of_nat (length l))) as [_|?]; [|lia].
  replace (Z.to_nat (-1 + Z.of_nat (length l))) with (pred (length l)) by lia.
  by rewrite Hl.
Qed.

Lemma py_setitem_nat {A} (l : list A) (i : nat) (v : A) :
  (i < length l)%nat → py_setitem l (Z.of_nat i) v = Returned (<[i:=v]> l).
Proof.
  intros Hi. unfold py_setitem, py_norm.
  destruct (decide (Z.of_nat i < 0)) as [?|_]; [lia|].
  destruct (decide (0 ≤ Z.of_nat i < Z.of_nat (length l))) as [_|?]; [|lia].
  by rewrite Nat2Z.id.
Qed.

(** ** The [for] loop over [range(n)] *)

Lemma for_loop_app {St} (body : Z → St → outcome St) (l1 l2 : list Z) (s : St) :
  for_loop body (l1 ++ l2) s = s' ← for_loop body l1 s; for_loop body l2 s'.
Proof.
  revert s. induction l1 as [|i l1 IH]; intros s; simpl; [done|].
  destruct (body i s) as [s'| |]; simpl; [apply IH|done..].
Qed.

Lemma range_S (n : nat) : range (S n) = range n ++ [Z.of_nat n].
Proof. unfold range. by rewrite seq_S, fmap_app. Qed.

(** An invariant that holds before the loop and is kept by every iteration
    holds after the loop, and the loop returns. *)
Lemma for_loop_range_inv {St} (Inv : nat → St → Prop)
    (body : Z → St → outcome St) (n : nat) (s0 : St) :
  Inv O s0 →
  (∀ (k : nat) (s : St), (k < n)%nat → Inv k s →
     ∃ s', body (Z.of_nat k) s = Returned s' ∧ Inv (S k) s') →
  ∃ s, for_loop body (range n) s0 = Returned s ∧ Inv n s.
Proof.
  intros H0 Hstep.
  assert (∀ k, (k ≤ n)%nat → ∃ s, for_loop body (range k) s0 = Returned s ∧ Inv k s)
    as Hk; [|by apply Hk].
  induction k as [|k IH]; intros Hle.
  - exists s0. by split.
  - destruct IH as (s & Hs & HI); [lia|].
    destruct (Hstep k s) as (s' & Hs' & HI'); [lia|done|].
    exists s'. split; [|done].
    rewrite range_S, for_loop_app, Hs. simpl. by rewrite Hs'.
Qed.

(** ** The stable sort by end time *)

Lemma insert_by_end_Permutation t l : insert_by_end t l ≡ₚ t :: l.
Proof.
  induction l as [|u l IH]; simpl; [done|].
  destruct (decide _); [done|]. rewrite IH. apply Permutation_swap.
Qed.

Lemma sorted_by_end_Permutation tasks : sorted_by_end tasks ≡ₚ tasks.
Proof.
  induction tasks as [|t l IH]; simpl; [done|].
  by rewrite insert_by_end_Permutation, IH.
Qed.

Lemma sorted_by_end_length tasks : length (sorted_by_end tasks) = length tasks.
Proof. apply Permutation_length, sorted_by_end_Permutation. Qed.

Global Instance end_le_trans : Transitive end_le.
Proof. unfold end_le. intros a b c. lia. Qed.

Lemma insert_by_end_sorted t l :
  StronglySorted end_le l → StronglySorted end_le (insert_by_end t l).
Proof.
  induction 1 as [|u l Hs IH Hu]; simpl.
  - repeat constructor.
  - destruct (decide _) as [Hle|Hgt].
    + constructor; [by constructor|].
      constructor; [done|].
      eapply Forall_impl; [exact Hu|]. unfold end_le in *. intros; lia.
    + constructor; [done|].
      rewrite insert_by_end_Permutation. constructor; [|done].
      unfold end_le. lia.
Qed.

Lemma sorted_by_end_sorted tasks : StronglySorted end_le (sorted_by_end tasks).
Proof.
  induction tasks as [|t l IH]; simpl; [constructor|].
  by apply insert_by_end_sorted.
Qed.

(** Stability: the tasks with a given end time keep their input order. *)
Lemma insert_by_end_filter (k : Z) t l :
  filter (λ u, end_time u = k) (insert_by_end t l)
  = filter (λ u, end_time u = k) (t :: l).
Proof.
  induction l as [|u l IH]; simpl; [done|].
  destruct (decide (end_time t ≤ end_time u)) as [Hle|Hgt]; [done|].
  rewrite !filter_cons, IH, !filter_cons.
  destruct (decide (end_time u = k)), (decide (end_time t = k)); try done; lia.
Qed.

Lemma sorted_by_end_stable (k : Z) tasks :
  filter (λ u, end_time u = k) (sorted_by_end tasks)
  = filter (λ u, end_time u = k) tasks.
Proof.
  induction tasks as [|t l IH]; simpl; [done|].
  by rewrite insert_by_end_filter, !filter_cons, IH.
Qed.

Lemma StronglySorted_end_lookup (l : list Task) (i j : nat) (a b : Task) :
  StronglySorted end_le l → (i ≤ j)%nat →
  l !! i = Some a → l !! j = Some b → end_time a ≤ end_time b.
Proof.
  intros Hs. revert i j. induction Hs as [|u l Hs IH Hu]; intros i j Hij Hi Hj.
  - by rewrite lookup_nil in Hi.
  - destruct i as [|i], j as [|j]; simpl in *; simplify_eq; try lia.
    + rewrite Forall_forall in Hu. apply Hu. eapply list_elem_of_lookup_2; eauto.
    + apply (IH i j); [lia|done..].
Qed.

(** ** Binary search *)

Lemma bisect_loop_spec (fuel : nat) (a : list Z) (x : Z) (lo hi : nat) :
  ascending a →
  (lo ≤ hi ≤ length a)%nat → (hi - lo ≤ fuel)%nat →
  (∀ (j : nat) (y : Z), (j < lo)%nat → a !! j = Some y → y ≤ x) →
  (∀ (j : nat) (y : Z), (hi ≤ j)%nat → a !! j = Some y → x < y) →
  splits a x (bisect_loop fuel a x lo hi).
Proof.
  intros Hasc. revert lo hi.
  induction fuel as [|fuel IH]; intros lo hi Hle Hfuel Hlo Hhi;
    cbn [bisect_loop].
  - assert (lo = hi) as -> by lia. by split.
  - destruct (decide (lo < hi)%nat) as [Hlt|Hge].
    2:{ assert (lo = hi) as -> by lia. by split. }
    cbv zeta. remember ((lo + hi) `div` 2)%nat as mid eqn:Emid.
    assert (lo ≤ mid < hi)%nat as Hmid.
    { subst mid. split.
      - apply Nat.div_le_lower_bound; lia.
      - apply Nat.Div0.div_lt_upper_bound; lia. }
    destruct (lookup_lt_is_Some_2 a mid) as [am Ham]; [lia|].
    rewrite Ham. destruct (decide (x < am)) as [Hx|Hx].
    + apply IH; [lia|lia|done|].
      intros j y Hj Hy. specialize (Hasc mid j am y Hj Ham Hy). lia.
    + apply IH; [lia|lia| |done].
      intros j y Hj Hy. assert (j ≤ mid)%nat as Hjm by lia.
      specialize (Hasc j mid y am Hjm Hy Ham). lia.
Qed.

Lemma bisect_loop_full_spec (a : list Z) (x : Z) :
  ascending a → splits a x (bisect_loop (length a) a x 0 (length a)).
Proof.
  intros Hasc. apply bisect_loop_spec; [done|lia|lia|intros; lia|].
  intros j y Hj Hy. apply lookup_lt_Some in Hy. lia.
Qed.

(** A split point is unique, so [bisect_right] returns the number of entries
    that are at most [x]. *)
Lemma splits_unique (a : list Z) (x : Z) (r1 r2 : nat) :
  (r1 ≤ length a)%nat → (r2 ≤ length a)%nat →
  splits a x r1 → splits a x r2 → r1 = r2.
Proof.
  intros H1 H2 [Hb1 Ha1] [Hb2 Ha2].
  destruct (decide (r1 = r2)) as [|Hne]; [done|exfalso].
  destruct (decide (r1 < r2)%nat).
  - destruct (lookup_lt_is_Some_2 a r1) as [y Hy]; [lia|].
    specialize (Ha1 r1 y ltac:(lia) Hy). specialize (Hb2 r1 y ltac:(lia) Hy). lia.
  - destruct (lookup_lt_is_Some_2 a r2) as [y Hy]; [lia|].
    specialize (Ha2 r2 y ltac:(lia) Hy). specialize (Hb1 r2 y ltac:(lia) Hy). lia.
Qed.

(** ** The predecessor table [p] *)

Lemma p_of_lookup ts (i : nat) t :
  ts !! i = Some t → p_of ts !! i = Some (Z.of_nat (prefix_len ts t) - 1).
Proof. intros Hi. unfold p_of. by rewrite list_lookup_fmap, Hi. Qed.

Lemma p_of_length ts : length (p_of ts) = length ts.
Proof. unfold p_of. by rewrite length_fmap. Qed.

Lemma p_phase_returns ts : p_phase ts = Returned (p_of ts).
Proof.
  unfold p_phase.
  destruct (for_loop_range_inv (λ k p, p = take k (p_of ts))
    (p_body ts (end_time <$> ts)) (length ts) []) as (p & Hp & ->).
  - done.
  - intros k p Hk ->.
    destruct (lookup_lt_is_Some_2 ts k) as [t Ht]; [done|].
    eexists. split.
    + unfold p_body. rewrite (py_index_nat _ _ _ Ht). simpl. reflexivity.
    + erewrite take_S_r; [done|]. unfold p_of. by rewrite list_lookup_fmap, Ht.
  - rewrite Hp. f_equal. apply take_ge. by rewrite p_of_length.
Qed.

Lemma ends_ascending ts : StronglySorted end_le ts → ascending (end_time <$> ts).
Proof.
  intros Hs i j x y Hij Hx Hy.
  rewrite list_lookup_fmap in Hx, Hy.
  destruct (ts !! i) as [a|] eqn:Ha, (ts !! j) as [b|] eqn:Hb; simplify_eq/=.
  eapply StronglySorted_end_lookup; eauto.
Qed.

Section sorted_tasks.
(** The tasks in processing order. *)
Variable ts : list Task.
Hypothesis ts_sorted : StronglySorted end_le ts.
Hypothesis ts_wf : Forall well_formed ts.

Lemma prefix_len_before (j : nat) (t u : Task) :
  (j < prefix_len ts t)%nat → ts !! j = Some u → end_time u ≤ start_time t.
Proof using ts_sorted.
  intros Hj Hu.
  destruct (bisect_loop_full_spec (end_time <$> ts) (start_time t)) as [Hb _];
    [by apply ends_ascending|].
  apply (Hb j); [done|]. by rewrite list_lookup_fmap, Hu.
Qed.

Lemma prefix_len_after (j : nat) (t u : Task) :
  (prefix_len ts t ≤ j)%nat → ts !! j = Some u → start_time t < end_time u.
Proof using ts_sorted.
  intros Hj Hu.
  destruct (bisect_loop_full_spec (end_time <$> ts) (start_time t)) as [_ Ha];
    [by apply ends_ascending|].
  apply (Ha j); [done|]. by rewrite list_lookup_fmap, Hu.
Qed.

(** With well-formed tasks the predecessor lies strictly before the task. *)
Lemma prefix_len_le (i : nat) (t : Task) :
  ts !! i = Some t → (prefix_len ts t ≤ i)%nat.
Proof using ts_sorted ts_wf.
  intros Ht. destruct (decide (prefix_len ts t ≤ i)%nat) as [|Hgt]; [done|exfalso].
  assert (end_time t ≤ start_time t) by (apply (prefix_len_before i t t); [lia|done]).
  assert (well_formed t) as Hwf.
  { rewrite Forall_forall in ts_wf. apply ts_wf. eapply list_elem_of_lookup_2; eauto. }
  unfold well_formed in Hwf. lia.
Qed.
End sorted_tasks.

(** ** The table [dp] *)

Lemma bind_Returned {A B} (f : A → outcome B) (a : A) : Returned a ≫= f = f a.
Proof. reflexivity. Qed.

Lemma dpv_insert_le (dp : list Z) (k j : nat) (v : Z) :
  (j ≤ k)%nat → dpv (<[k:=v]> dp) j = dpv dp j.
Proof.
  intros Hj. destruct j as [|j]; simpl; [done|].
  rewrite list_lookup_insert_ne; [done|lia].
Qed.

Lemma dpv_insert_eq (dp : list Z) (k : nat) (v : Z) :
  (k < length dp)%nat → dpv (<[k:=v]> dp) (S k) = v.
Proof. intros Hk. simpl. by rewrite list_lookup_insert_eq. Qed.

Lemma exclude_profit_eq (dp : list Z) (i : nat) :
  (i ≤ length dp)%nat → exclude_profit dp (Z.of_nat i) = Returned (dpv dp i).
Proof.
  intros Hi. unfold exclude_profit. destruct i as [|i].
  - by destruct (decide (0 < Z.of_nat 0)) as [?|_]; [lia|].
  - destruct (decide (0 < Z.of_nat (S i))) as [_|?]; [|lia].
    destruct (lookup_lt_is_Some_2 dp i) as [v Hv]; [lia|].
    replace (Z.of_nat (S i) - 1) with (Z.of_nat i) by lia.
    rewrite (py_index_nat _ _ _ Hv). simpl. by rewrite Hv.
Qed.

Lemma include_profit_eq (ts : list Task) (dp : list Z) (i : nat) (t : Task) :
  ts !! i = Some t → (prefix_len ts t ≤ length dp)%nat →
  include_profit ts (p_of ts) dp (Z.of_nat i) = Returned (include_val ts dp t).
Proof.
  intros Ht Hr. unfold include_profit, include_val.
  rewrite (py_index_nat _ _ _ Ht), bind_Returned.
  rewrite (py_index_nat _ _ _ (p_of_lookup _ _ _ Ht)), bind_Returned.
  destruct (prefix_len ts t) as [|r].
  - by destruct (decide (0 ≤ Z.of_nat 0 - 1)) as [?|_]; [lia|].
  - destruct (decide (0 ≤ Z.of_nat (S r) - 1)) as [_|?]; [|lia].
    destruct (lookup_lt_is_Some_2 dp r) as [v Hv]; [lia|].
    replace (Z.of_nat (S r) - 1) with (Z.of_nat r) by lia.
    rewrite (py_index_nat _ _ _ Hv). simpl. by rewrite Hv.
Qed.

Section table.
Variable ts : list Task.
Hypothesis ts_sorted : StronglySorted end_le ts.
Hypothesis ts_wf : Forall well_formed ts.

Lemma include_val_insert (dp : list Z) (k i : nat) (v : Z) (t : Task) :
  ts !! i = Some t → (i ≤ k)%nat →
  include_val ts (<[k:=v]> dp) t = include_val ts dp t.
Proof using ts_sorted ts_wf.
  intros Ht Hik. unfold include_val. rewrite dpv_insert_le; [done|].
  pose proof (prefix_len_le ts ts_sorted ts_wf i t Ht). lia.
Qed.

Lemma table_ok_step (k : nat) (dp : list Z) (choose : list bool) (t : Task) :
  ts !! k = Some t → table_ok ts k (dp, choose) →
  let inc := include_val ts dp t in
  let exc := dpv dp k in
  table_ok ts (S k)
    (<[k:=Z.max inc exc]> dp, <[k:=bool_decide (exc < inc)]> choose).
Proof using ts_sorted ts_wf.
  intros Ht (Hdp & Hch & Hrec) inc exc. simpl in Hdp, Hch.
  assert (k < length ts)%nat as Hk by eauto using lookup_lt_Some.
  split_and!; simpl; [by rewrite length_insert..|].
  intros i u Hi Hu. destruct (decide (i = k)) as [->|Hne].
  - simplify_eq.
    rewrite (include_val_insert _ k k) by done.
    pose proof (dpv_insert_eq dp k (Z.max inc exc)) as Heq. simpl in Heq.
    rewrite Heq by lia.
    rewrite (dpv_insert_le _ k k) by done.
    split; [done|]. rewrite list_lookup_insert_eq; [done|lia].
  - destruct (Hrec i u) as [Hd Hc]; [lia|done|]. simpl in Hd, Hc.
    rewrite (include_val_insert _ k i) by (done || lia).
    rewrite (dpv_insert_le _ k i) by lia.
    rewrite !list_lookup_insert_ne by lia.
    by split.
Qed.

Lemma dp_body_returns (k : nat) (dp : list Z) (choose : list bool) (t : Task) :
  ts !! k = Some t → table_ok ts k (dp, choose) →
  ∃ st, dp_body ts (p_of ts) (Z.of_nat k) (dp, choose) = Returned st
        ∧ table_ok ts (S k) st.
Proof using ts_sorted ts_wf.
  intros Ht Hok. pose proof (table_ok_step k dp choose t Ht Hok) as Hnext.
  destruct Hok as (Hdp & Hch & _). simpl in Hdp, Hch, Hnext.
  assert (k < length ts)%nat as Hk by eauto using lookup_lt_Some.
  pose proof (prefix_len_le ts ts_sorted ts_wf k t Ht) as Hr.
  unfold dp_body.
  rewrite (include_profit_eq _ _ _ _ Ht), bind_Returned by lia.
  rewrite exclude_profit_eq, bind_Returned by lia.
  destruct (decide (dpv dp k < include_val ts dp t)) as [Hlt|Hge].
  - rewrite !py_setitem_nat, !bind_Returned by lia.
    eexists; split; [reflexivity|].
    rewrite Z.max_l, bool_decide_eq_true_2 in Hnext by (done || lia). done.
  - rewrite !py_setitem_nat, !bind_Returned by lia.
    eexists; split; [reflexivity|].
    rewrite Z.max_r, bool_decide_eq_false_2 in Hnext by (done || lia). done.
Qed.

Lemma dp_phase_returns :
  ∃ dp choose, dp_phase ts (p_of ts) = Returned (dp, choose)
               ∧ table_ok ts (length ts) (dp, choose).
Proof using ts_sorted ts_wf.
  unfold dp_phase.
  destruct (for_loop_range_inv (table_ok ts) (dp_body ts (p_of ts)) (length ts)
    (replicate (length ts) 0, replicate (length ts) false))
    as ([dp choose] & Hrun & Hok).
  - split_and!; simpl; [by rewrite length_replicate..|]. intros; lia.
  - intros k [dp choose] Hk Hok.
    destruct (lookup_lt_is_Some_2 ts k) as [t Ht]; [done|].
    by apply (dp_body_returns k dp choose t).
  - by exists dp, choose.
Qed.
End table.

(** ** Backtracking *)

Lemma sublist_StronglySorted {A} (R : relation A) (l1 l2 : list A) :
  l1 `sublist_of` l2 → StronglySorted R l2 → StronglySorted R l1.
Proof.
  induction 1 as [|x l1 l2 Hsub IH|x l1 l2 Hsub IH]; intros Hs; [done|..].
  - apply StronglySorted_inv in Hs as [Hs Hx]. constructor; [by apply IH|].
    rewrite Forall_forall in Hx |- *. intros y Hy. apply Hx.
    eapply elem_of_sublist; eauto.
  - apply StronglySorted_inv in Hs as [Hs _]. by apply IH.
Qed.

Section backtracking.
Variable ts : list Task.
Hypothesis ts_sorted : StronglySorted end_le ts.
Hypothesis ts_wf : Forall well_formed ts.
Variable dp : list Z.
Variable choose : list bool.
Hypothesis dp_ok : table_ok ts (length ts) (dp, choose).

Lemma dp_length : length dp = length ts.
Proof using dp_ok. by destruct dp_ok as (? & _). Qed.

Lemma dp_rec (i : nat) (t : Task) :
  ts !! i = Some t → dpv dp (S i) = Z.max (include_val ts dp t) (dpv dp i).
Proof using dp_ok.
  intros Ht. destruct dp_ok as (_ & _ & Hrec).
  apply (Hrec i t); [eauto using lookup_lt_Some|done].
Qed.

Lemma choose_rec (i : nat) (t : Task) :
  ts !! i = Some t →
  choose !! i = Some (bool_decide (dpv dp i < include_val ts dp t)).
Proof using dp_ok.
  intros Ht. destruct dp_ok as (_ & _ & Hrec).
  apply (Hrec i t); [eauto using lookup_lt_Some|done].
Qed.

(** The table is non-negative and never decreases. *)
Lemma dpv_mono (j i : nat) :
  (j ≤ i ≤ length ts)%nat → dpv dp j ≤ dpv dp i.
Proof using dp_ok.
  induction i as [|i IH]; intros Hji.
  - by replace j with O by lia.
  - destruct (decide (j = S i)) as [->|Hne]; [done|].
    destruct (lookup_lt_is_Some_2 ts i) as [t Ht]; [lia|].
    rewrite (dp_rec i t Ht). etrans; [apply IH; lia|]. lia.
Qed.

Lemma dpv_nonneg (i : nat) : (i ≤ length ts)%nat → 0 ≤ dpv dp i.
Proof using dp_ok. intros Hi. apply (dpv_mono 0 i). lia. Qed.

Lemma backtrack_step_eq (i : nat) (t : Task) (acc : list Task) :
  ts !! i = Some t →
  backtrack_step ts (p_of ts) dp (Z.of_nat i) acc
  = Returned (if decide (dpv dp i < include_val ts dp t)
              then (Z.of_nat (prefix_len ts t) - 1, acc ++ [t])
              else (Z.of_nat i - 1, acc)).
Proof using ts_sorted ts_wf dp_ok.
  intros Ht. pose proof dp_length as Hlen.
  assert (i < length ts)%nat as Hi by eauto using lookup_lt_Some.
  pose proof (prefix_len_le ts ts_sorted ts_wf i t Ht) as Hr.
  unfold backtrack_step.
  rewrite (include_profit_eq _ _ _ _ Ht), bind_Returned by lia.
  rewrite exclude_profit_eq, bind_Returned by lia.
  destruct (decide _); [|done].
  rewrite (py_index_nat _ _ _ Ht), bind_Returned.
  by rewrite (py_index_nat _ _ _ (p_of_lookup _ _ _ Ht)), bind_Returned.
Qed.

(** The loop returns within [k + 1] tests of its condition. *)
Lemma backtrack_run (fuel k : nat) (acc : list Task) :
  (k ≤ length ts)%nat → (k < fuel)%nat →
  ∃ sel vis,
    backtrack fuel ts (p_of ts) dp (Z.of_nat k - 1) acc = Returned (acc ++ sel)
    ∧ backtrack_visits fuel ts (p_of ts) dp (Z.of_nat k - 1) acc = vis
    ∧ bt_run ts dp k sel vis.
Proof using ts_sorted ts_wf dp_ok.
  revert k acc. induction fuel as [|fuel IH]; intros k acc Hk Hfuel; [lia|].
  destruct k as [|i]; simpl backtrack; simpl backtrack_visits.
  - destruct (decide (0 ≤ Z.of_nat 0 - 1)) as [?|_]; [lia|].
    exists [], []. rewrite app_nil_r. split_and!; [done..|constructor].
  - destruct (decide (0 ≤ Z.of_nat (S i) - 1)) as [_|?]; [|lia].
    replace (Z.of_nat (S i) - 1) with (Z.of_nat i) by lia.
    destruct (lookup_lt_is_Some_2 ts i) as [t Ht]; [lia|].
    pose proof (prefix_len_le ts ts_sorted ts_wf i t Ht) as Hr.
    rewrite (backtrack_step_eq i t acc Ht), bind_Returned.
    destruct (decide (dpv dp i < include_val ts dp t)) as [Hlt|Hge].
    + destruct (IH (prefix_len ts t) (acc ++ [t])) as (sel & vis & Hb & Hv & Hrun);
        [lia..|].
      exists (t :: sel), (Z.of_nat i :: vis).
      rewrite Hb, Hv, <-app_assoc. split_and!; [done..|].
      by apply (bt_take ts dp i t).
    + destruct (IH i acc) as (sel & vis & Hb & Hv & Hrun); [lia..|].
      exists sel, (Z.of_nat i :: vis).
      rewrite Hb, Hv. split_and!; [done..|].
      by apply (bt_skip ts dp i t).
Qed.

Lemma take_sublist_take (j i : nat) :
  (j ≤ i)%nat → take j ts `sublist_of` take i ts.
Proof.
  intros Hji. replace (take j ts) with (take j (take i ts)); [apply sublist_take|].
  rewrite take_take. f_equal. lia.
Qed.

Lemma bt_run_sublist (k : nat) (sel : list Task) (vis : list Z) :
  bt_run ts dp k sel vis → reverse sel `sublist_of` take k ts.
Proof using ts_sorted ts_wf.
  induction 1 as [|i t sel vis Ht Hlt Hrun IH|i t sel vis Ht Hge Hrun IH].
  - done.
  - rewrite reverse_cons, (take_S_r _ _ _ Ht).
    apply sublist_app; [|done].
    etrans; [exact IH|]. apply take_sublist_take.
    by apply (prefix_len_le ts ts_sorted ts_wf).
  - etrans; [exact IH|]. apply take_sublist_take. lia.
Qed.

Lemma bt_run_sum (k : nat) (sel : list Task) (vis : list Z) :
  bt_run ts dp k sel vis → sum_profit sel = dpv dp k.
Proof using dp_ok.
  induction 1 as [|i t sel vis Ht Hlt Hrun IH|i t sel vis Ht Hge Hrun IH].
  - done.
  - rewrite (dp_rec i t Ht). simpl. rewrite IH. unfold include_val in *. lia.
  - rewrite (dp_rec i t Ht). lia.
Qed.

Lemma bt_run_positive (k : nat) (sel : list Task) (vis : list Z) :
  bt_run ts dp k sel vis → Forall (λ t, 0 < profit t) sel.
Proof using ts_sorted ts_wf dp_ok.
  induction 1 as [|i t sel vis Ht Hlt Hrun IH|i t sel vis Ht Hge Hrun IH];
    [done| |done].
  constructor; [|done].
  pose proof (prefix_len_le ts ts_sorted ts_wf i t Ht) as Hr.
  assert (i < length ts)%nat as Hi by eauto using lookup_lt_Some.
  pose proof (dpv_mono (prefix_len ts t) i). unfold include_val in Hlt. lia.
Qed.

Lemma bt_run_compatible (k : nat) (sel : list Task) (vis : list Z) :
  bt_run ts dp k sel vis → non_conflicting sel.
Proof using ts_sorted ts_wf.
  induction 1 as [|i t sel vis Ht Hlt Hrun IH|i t sel vis Ht Hge Hrun IH];
    [constructor| |done].
  constructor; [|done].
  apply Forall_forall. intros u Hu%elem_of_reverse.
  eapply elem_of_sublist in Hu; [|by eapply bt_run_sublist].
  apply list_elem_of_lookup in Hu as [j Hj].
  apply lookup_take_Some in Hj as [Hj Hlt'].
  right. by apply (prefix_len_before ts ts_sorted j).
Qed.

Lemma bt_run_appended (k : nat) (sel : list Task) (vis : list Z) :
  bt_run ts dp k sel vis → sel = omap (appended_at ts (p_of ts) dp) vis.
Proof using ts_sorted ts_wf dp_ok.
  pose proof dp_length as Hlen.
  assert (∀ (i : nat) t, ts !! i = Some t →
    appended_at ts (p_of ts) dp (Z.of_nat i)
    = if decide (dpv dp i < include_val ts dp t) then Some t else None) as Happ.
  { intros i t Ht. unfold appended_at.
    assert (i < length ts)%nat as Hi by eauto using lookup_lt_Some.
    pose proof (prefix_len_le ts ts_sorted ts_wf i t Ht) as Hr.
    rewrite (include_profit_eq _ _ _ _ Ht) by lia.
    rewrite exclude_profit_eq by lia.
    destruct (decide _); [|done]. by rewrite Nat2Z.id. }
  induction 1 as [|i t sel vis Ht Hlt Hrun IH|i t sel vis Ht Hge Hrun IH];
    [done|..]; simpl; rewrite (Happ i t Ht).
  - destruct (decide _); [|done]. f_equal. exact IH.
  - destruct (decide _); [done|exact IH].
Qed.
End backtracking.

(** ** Optimality of the table *)

Lemma compatible_sym (a b : Task) : compatible a b → compatible b a.
Proof. unfold compatible. lia. Qed.

Lemma non_conflicting_cons (t : Task) (s : list Task) :
  non_conflicting (t :: s) ↔ Forall (compatible t) s ∧ non_conflicting s.
Proof.
  split.
  - inversion 1; subst. by split.
  - intros [? ?]. by constructor.
Qed.

Lemma non_conflicting_Permutation (s s' : list Task) :
  s ≡ₚ s' → non_conflicting s → non_conflicting s'.
Proof.
  induction 1 as [|x l l' Hp IH|x y l|l1 l2 l3 _ IH1 _ IH2]; [done|..|by auto].
  - rewrite !non_conflicting_cons. intros [Hx Hl]. split; [|by apply IH].
    by rewrite <-Hp.
  - rewrite !non_conflicting_cons, !Forall_cons. intros [[Hyx Hy] [Hx Hl]].
    split_and!; [by apply compatible_sym|done..].
Qed.

Lemma sum_profit_Permutation (s s' : list Task) :
  s ≡ₚ s' → sum_profit s = sum_profit s'.
Proof.
  induction 1 as [|x l l' _ IH|x y l|l1 l2 l3 _ IH1 _ IH2]; simpl; lia.
Qed.

Lemma sum_profit_reverse (s : list Task) : sum_profit (reverse s) = sum_profit s.
Proof. apply sum_profit_Permutation. by rewrite reverse_Permutation. Qed.

(** A sub-multiset of [l1 ++ l2] that avoids [l2] is a sub-multiset of [l1]. *)
Lemma submseteq_restrict (P : Task → Prop) (s l1 l2 : list Task) :
  s ⊆+ l1 ++ l2 → Forall P s → Forall (λ u, ¬ P u) l2 → s ⊆+ l1.
Proof.
  intros Hs HP. revert Hs. induction l2 as [|u l2 IH]; intros Hs Hn.
  - by rewrite app_nil_r in Hs.
  - apply Forall_cons in Hn as [Hu Hn].
    rewrite <-Permutation_middle in Hs.
    apply submseteq_cons_r in Hs as [Hs|(s' & Hp & _)]; [by apply IH|].
    exfalso. apply Hu. rewrite Forall_forall in HP. apply HP.
    rewrite Hp. by left.
Qed.

Section optimality.
Variable ts : list Task.
Hypothesis ts_sorted : StronglySorted end_le ts.
Hypothesis ts_wf : Forall well_formed ts.
Variable dp : list Z.
Variable choose : list bool.
Hypothesis dp_ok : table_ok ts (length ts) (dp, choose).

(** No conflict-free choice among the first [k] tasks earns more than the
    table says. *)
Lemma dpv_upper_bound (k : nat) (s : list Task) :
  (k ≤ length ts)%nat → s ⊆+ take k ts → non_conflicting s →
  sum_profit s ≤ dpv dp k.
Proof using ts_sorted ts_wf dp_ok.
  revert s. induction (lt_wf k) as [k _ IH]. intros s Hk Hs Hnc.
  destruct k as [|i].
  - rewrite take_0 in Hs. apply submseteq_nil_r in Hs as ->. done.
  - destruct (lookup_lt_is_Some_2 ts i) as [t Ht]; [lia|].
    rewrite (dp_rec ts dp choose dp_ok i t Ht).
    rewrite (take_S_r _ _ _ Ht), <-Permutation_cons_append in Hs.
    apply submseteq_cons_r in Hs as [Hs|(s' & Hp & Hs')].
    + specialize (IH i ltac:(lia) s ltac:(lia) Hs Hnc). lia.
    + apply (non_conflicting_Permutation _ _ Hp) in Hnc.
      apply non_conflicting_cons in Hnc as [Hct Hnc].
      rewrite (sum_profit_Permutation _ _ Hp). simpl.
      pose proof (prefix_len_le ts ts_sorted ts_wf i t Ht) as Hr.
      assert (s' ⊆+ take (prefix_len ts t) ts) as Hs''.
      { apply (submseteq_restrict (λ u, end_time u ≤ start_time t) _ _
                 (drop (prefix_len ts t) (take i ts))).
        - rewrite <-(take_drop (prefix_len ts t) (take i ts)) in Hs'.
          by rewrite take_take, Nat.min_l in Hs' by done.
        - apply Forall_forall. intros u Hu.
          assert (compatible t u) as [Htu|Hut]; [|exfalso|done].
          { rewrite Forall_forall in Hct. by apply Hct. }
          eapply elem_of_submseteq in Hu; [|exact Hs'].
          apply elem_of_take in Hu as (j & Hj & Hji).
          assert (end_time u ≤ end_time t) as Hle.
          { apply (StronglySorted_end_lookup ts j i); [done|lia|done..]. }
          assert (well_formed u) as Hwf.
          { rewrite Forall_forall in ts_wf. apply ts_wf.
            eapply list_elem_of_lookup_2; eauto. }
          unfold well_formed in Hwf. lia.
        - apply Forall_lookup. intros j u Hj.
          rewrite lookup_drop in Hj. apply lookup_take_Some in Hj as [Hj _].
          pose proof (prefix_len_after ts ts_sorted _ t u
                        ltac:(apply Nat.le_add_r) Hj).
          lia. }
      specialize (IH (prefix_len ts t) ltac:(lia) s' ltac:(lia) Hs'' Hnc).
      unfold include_val. lia.
Qed.
End optimality.

(** ** The whole function *)

Lemma non_conflicting_lookup (s : list Task) (i j : nat) (a b : Task) :
  non_conflicting s → i ≠ j → s !! i = Some a → s !! j = Some b → compatible a b.
Proof.
  intros Hs. revert i j a b.
  assert (∀ i j a b, (i < j)%nat → s !! i = Some a → s !! j = Some b →
    compatible a b) as Hlt.
  { induction Hs as [|x l Hx Hl IH]; intros i j a b Hij Hi Hj.
    - by rewrite lookup_nil in Hi.
    - destruct j as [|j]; [lia|]. destruct i as [|i]; simpl in *.
      + simplify_eq. rewrite Forall_forall in Hx. apply Hx.
        eapply list_elem_of_lookup_2; eauto.
      + apply (IH i j); [lia|done..]. }
  intros i j a b Hne Hi Hj. destruct (decide (i < j)%nat).
  - by apply (Hlt i j).
  - apply compatible_sym, (Hlt j i); [lia|done..].
Qed.

(** Everything the function does on well-formed input: the table it builds,
    the run of the backtracking loop and the value returned. *)
Lemma schedule_run (fuel : nat) (tasks : list Task) :
  Forall well_formed tasks → (length tasks < fuel)%nat →
  let ts := sorted_by_end tasks in
  ∃ dp choose sel vis,
    dp_phase ts (p_of ts) = Returned (dp, choose)
    ∧ table_ok ts (length ts) (dp, choose)
    ∧ backtrack_visits fuel ts (p_of ts) dp (Z.of_nat (length ts) - 1) [] = vis
    ∧ bt_run ts dp (length ts) sel vis
    ∧ weighted_interval_scheduling fuel tasks
      = Returned (reverse sel, dpv dp (length ts)).
Proof.
  intros Hwf Hfuel ts.
  assert (StronglySorted end_le ts) as Hs by apply sorted_by_end_sorted.
  assert (Forall well_formed ts) as Hwf'.
  { subst ts. by rewrite sorted_by_end_Permutation. }
  assert (length ts = length tasks) as Hlen by apply sorted_by_end_length.
  destruct (dp_phase_returns ts Hs Hwf') as (dp & choose & Hdp & Hok).
  destruct (backtrack_run ts Hs Hwf' dp choose Hok fuel (length ts) [])
    as (sel & vis & Hb & Hv & Hrun); [lia..|].
  exists dp, choose, sel, vis. split_and!; [done..|].
  unfold weighted_interval_scheduling. destruct tasks as [|t0 tasks'].
  - assert (ts = []) as Hts by done. rewrite Hts in Hrun. simpl in Hrun.
    inversion Hrun; subst. by rewrite Hts.
  - fold ts. rewrite p_phase_returns, bind_Returned, Hdp, bind_Returned.
    simpl in Hb. rewrite Hb, bind_Returned.
    pose proof (dp_length ts dp choose Hok) as Hdl.
    destruct (length ts) as [|m] eqn:Hm; [simpl in Hlen; lia|].
    destruct (lookup_lt_is_Some_2 dp m) as [v Hv']; [lia|].
    rewrite (py_index_last dp v) by (by rewrite Hdl).
    simpl. by rewrite Hv'.
Qed.

(** The properties of the result that follow from the run. *)
Lemma schedule_facts (fuel : nat) (tasks : list Task) :
  Forall well_formed tasks → (length tasks < fuel)%nat →
  ∃ selected total_profit,
    weighted_interval_scheduling fuel tasks = Returned (selected, total_profit)
    ∧ selected `sublist_of` sorted_by_end tasks
    ∧ non_conflicting selected
    ∧ sum_profit selected = total_profit
    ∧ Forall (λ t, 0 < profit t) selected
    ∧ 0 ≤ total_profit
    ∧ ∀ s, s ⊆+ tasks → non_conflicting s → sum_profit s ≤ total_profit.
Proof.
  intros Hwf Hfuel.
  destruct (schedule_run fuel tasks Hwf Hfuel)
    as (dp & choose & sel & vis & Hdp & Hok & Hv & Hrun & Hret).
  set (ts := sorted_by_end tasks) in *.
  assert (StronglySorted end_le ts) as Hs by apply sorted_by_end_sorted.
  assert (Forall well_formed ts) as Hwf'.
  { subst ts. by rewrite sorted_by_end_Permutation. }
  exists (reverse sel), (dpv dp (length ts)). split_and!.
  - done.
  - pose proof (bt_run_sublist ts Hs Hwf' dp _ _ _ Hrun) as Hsub.
    by rewrite firstn_all in Hsub.
  - eapply non_conflicting_Permutation; [symmetry; apply reverse_Permutation|].
    by eapply bt_run_compatible.
  - rewrite sum_profit_reverse. by eapply bt_run_sum.
  - rewrite Forall_reverse. by eapply bt_run_positive.
  - by eapply dpv_nonneg.
  - intros s Hsub Hnc.
    apply (dpv_upper_bound ts Hs Hwf' dp choose Hok); [done| |done].
    rewrite firstn_all. subst ts. by rewrite sorted_by_end_Permutation.
Qed.

(** The result depends on the input only through its sorted order. *)
Lemma schedule_sorted_eq (fuel : nat) (tasks tasks' : list Task) :
  sorted_by_end tasks = sorted_by_end tasks' →
  weighted_interval_scheduling fuel tasks
  = weighted_interval_scheduling fuel tasks'.
Proof.
  intros Heq.
  assert (length tasks = length tasks') as Hlen.
  { by rewrite <-(sorted_by_end_length tasks), Heq, sorted_by_end_length. }
  unfold weighted_interval_scheduling.
  destruct tasks as [|t l], tasks' as [|t' l']; simpl in Hlen; try lia; [done|].
  by rewrite Heq.
Qed.

Lemma NoDup_key_eq (l : list Task) (x y : Task) :
  NoDup (end_time <$> l) → x ∈ l → y ∈ l → end_time x = end_time y → x = y.
Proof.
  induction l as [|a l IH]; intros Hnd Hx Hy Heq; [by apply elem_of_nil in Hx|].
  rewrite fmap_cons in Hnd. apply NoDup_cons in Hnd as [Ha Hnd].
  apply elem_of_cons in Hx as [->|Hx], Hy as [->|Hy]; [done|..|by apply IH].
  - exfalso. apply Ha. rewrite Heq. by apply list_elem_of_fmap_2.
  - exfalso. apply Ha. rewrite <-Heq. by apply list_elem_of_fmap_2.
Qed.

(** With pairwise distinct end times the sorted order does not depend on the
    input order. *)
Lemma sorted_by_end_unique (tasks tasks' : list Task) :
  NoDup (end_time <$> tasks) → tasks ≡ₚ tasks' →
  sorted_by_end tasks = sorted_by_end tasks'.
Proof.
  intros Hnd Hp.
  apply (StronglySorted_unique_strong end_le);
    [|apply sorted_by_end_sorted..|by rewrite !sorted_by_end_Permutation].
  intros x1 x2 Hx1 Hx2 H12 H21.
  rewrite sorted_by_end_Permutation in Hx1.
  rewrite sorted_by_end_Permutation, <-Hp in Hx2.
  apply (NoDup_key_eq tasks); [done..|]. unfold end_le in *. lia.
Qed.

(** The total profit does not depend on the order of the input. *)
Lemma schedule_total_Permutation (fuel : nat) (tasks tasks' : list Task) :
  Forall well_formed tasks → tasks ≡ₚ tasks' → (length tasks < fuel)%nat →
  ∃ selected selected' total_profit,
    weighted_interval_scheduling fuel tasks = Returned (selected, total_profit)
    ∧ weighted_interval_scheduling fuel tasks' = Returned (selected', total_profit).
Proof.
  intros Hwf Hp Hfuel.
  assert (Forall well_formed tasks') as Hwf' by (by rewrite <-Hp).
  assert (length tasks' < fuel)%nat as Hfuel' by (by rewrite <-Hp).
  destruct (schedule_facts fuel tasks Hwf Hfuel)
    as (sel & tot & Hret & Hsub & Hnc & Hsum & _ & _ & Hmax).
  destruct (schedule_facts fuel tasks' Hwf' Hfuel')
    as (sel' & tot' & Hret' & Hsub' & Hnc' & Hsum' & _ & _ & Hmax').
  assert (sel ⊆+ tasks') as Hin.
  { rewrite <-Hp, <-(sorted_by_end_Permutation tasks). by apply sublist_submseteq. }
  assert (sel' ⊆+ tasks) as Hin'.
  { rewrite Hp, <-(sorted_by_end_Permutation tasks'). by apply sublist_submseteq. }
  specialize (Hmax sel' Hin' Hnc'). specialize (Hmax' sel Hin Hnc).
  assert (tot = tot') as <- by lia.
  by exists sel, sel', tot.
Qed.

(** ** The claims of the specification *)

Lemma demo_tasks_well_formed : Forall well_formed demo_tasks.
Proof. repeat constructor. Defined.

Lemma demo_tasks_short : (length demo_tasks < 6)%nat.
Proof. simpl. lia. Defined.

(** C1: on well-formed input the total profit returned is the maximum of the
    profit sums of the conflict-free sub-multisets of the input: some
    conflict-free sub-multiset earns exactly the total, and none earns
    more. *)
Theorem total_profit_is_maximum (fuel : nat) (tasks : list Task) :
  Forall well_formed tasks → (length tasks < fuel)%nat →
  ∃ selected total_profit,
    weighted_interval_scheduling fuel tasks = Returned (selected, total_profit)
    ∧ (∃ s, s ⊆+ tasks ∧ non_conflicting s ∧ sum_profit s = total_profit)
    ∧ (∀ s, s ⊆+ tasks → non_conflicting s → sum_profit s ≤ total_profit).
Proof.
  intros Hwf Hfuel.
  destruct (schedule_facts fuel tasks Hwf Hfuel)
    as (sel & tot & Hret & Hsub & Hnc & Hsum & _ & _ & Hmax).
  exists sel, tot. split_and!; [done| |done].
  exists sel. split_and!; [|done..].
  rewrite <-(sorted_by_end_Permutation tasks). by apply sublist_submseteq.
Qed.

Lemma total_profit_is_maximum_witness :
  Forall well_formed demo_tasks ∧ (length demo_tasks < 6)%nat ∧
  ∃ selected total_profit,
    weighted_interval_scheduling 6 demo_tasks = Returned (selected, total_profit)
    ∧ (∃ s, s ⊆+ demo_tasks ∧ non_conflicting s ∧ sum_profit s = total_profit)
    ∧ (∀ s, s ⊆+ demo_tasks → non_conflicting s → sum_profit s ≤ total_profit).
Proof.
  split; [exact demo_tasks_well_formed|]. split; [exact demo_tasks_short|].
  exact (total_profit_is_maximum 6 demo_tasks
           demo_tasks_well_formed demo_tasks_short).
Defined.

(** C2: on well-formed input the selected list is a sub-multiset of the input
    and any two tasks at different positions of it do not conflict: one of
    them ends no later than the other starts. *)
Theorem selected_is_conflict_free_subset (fuel : nat) (tasks : list Task) :
  Forall well_formed tasks → (length tasks < fuel)%nat →
  ∃ selected total_profit,
    weighted_interval_scheduling fuel tasks = Returned (selected, total_profit)
    ∧ selected ⊆+ tasks
    ∧ ∀ (i j : nat) (a b : Task),
        i ≠ j → selected !! i = Some a → selected !! j = Some b →
        end_time a ≤ start_time b ∨ end_time b ≤ start_time a.
Proof.
  intros Hwf Hfuel.
  destruct (schedule_facts fuel tasks Hwf Hfuel)
    as (sel & tot & Hret & Hsub & Hnc & _).
  exists sel, tot. split_and!; [done| |].
  - rewrite <-(sorted_by_end_Permutation tasks). by apply sublist_submseteq.
  - intros i j a b Hne Ha Hb. by apply (non_conflicting_lookup sel i j).
Qed.

Lemma selected_is_conflict_free_subset_witness :
  Forall well_formed demo_tasks ∧ (length demo_tasks < 6)%nat ∧
  ∃ selected total_profit,
    weighted_interval_scheduling 6 demo_tasks = Returned (selected, total_profit)
    ∧ selected ⊆+ demo_tasks
    ∧ ∀ (i j : nat) (a b : Task),
        i ≠ j → selected !! i = Some a → selected !! j = Some b →
        end_time a ≤ start_time b ∨ end_time b ≤ start_time a.
Proof.
  split; [exact demo_tasks_well_formed|]. split; [exact demo_tasks_short|].
  exact (selected_is_conflict_free_subset 6 demo_tasks
           demo_tasks_well_formed demo_tasks_short).
Defined.

(** C3: on well-formed input the total profit returned is the sum of the
    profits of the selected tasks. *)
Theorem total_profit_is_sum_of_selected (fuel : nat) (tasks : list Task) :
  Forall well_formed tasks → (length tasks < fuel)%nat →
  ∃ selected total_profit,
    weighted_interval_scheduling fuel tasks = Returned (selected, total_profit)
    ∧ total_profit = sum_profit selected.
Proof.
  intros Hwf Hfuel.
  destruct (schedule_facts fuel tasks Hwf Hfuel)
    as (sel & tot & Hret & _ & _ & Hsum & _).
  by exists sel, tot.
Qed.

Lemma total_profit_is_sum_of_selected_witness :
  Forall well_formed demo_tasks ∧ (length demo_tasks < 6)%nat ∧
  ∃ selected total_profit,
    weighted_interval_scheduling 6 demo_tasks = Returned (selected, total_profit)
    ∧ total_profit = sum_profit selected.
Proof.
  split; [exact demo_tasks_well_formed|]. split; [exact demo_tasks_short|].
  exact (total_profit_is_sum_of_selected 6 demo_tasks
           demo_tasks_well_formed demo_tasks_short).
Defined.

(** C4: on well-formed input (empty input, negative profits and duplicate ids
    included) the backtracking loop stops within [len(tasks) + 1] tests of
    its condition and the function returns a result: it raises no
    [IndexError] and does not loop. *)
Theorem schedule_returns (fuel : nat) (tasks : list Task) :
  Forall well_formed tasks → (length tasks < fuel)%nat →
  ∃ selected total_profit,
    weighted_interval_scheduling fuel tasks = Returned (selected, total_profit).
Proof.
  intros Hwf Hfuel.
  destruct (schedule_facts fuel tasks Hwf Hfuel) as (sel & tot & Hret & _).
  by exists sel, tot.
Qed.

Lemma schedule_returns_witness :
  Forall well_formed demo_tasks ∧ (length demo_tasks < 6)%nat ∧
  ∃ selected total_profit,
    weighted_interval_scheduling 6 demo_tasks = Returned (selected, total_profit).
Proof.
  split; [exact demo_tasks_well_formed|]. split; [exact demo_tasks_short|].
  exact (schedule_returns 6 demo_tasks demo_tasks_well_formed demo_tasks_short).
Defined.

(** C5, as stated, fails: for the two orders of two overlapping tasks that
    end together and earn the same, the task that comes first in the input
    is the one selected. *)
Lemma selection_depends_on_input_order :
  ¬ (∀ (fuel : nat) (tasks tasks' selected selected' : list Task)
       (total_profit total_profit' : Z),
       Forall well_formed tasks → (length tasks < fuel)%nat →
       tasks ≡ₚ tasks' →
       weighted_interval_scheduling fuel tasks
         = Returned (selected, total_profit) →
       weighted_interval_scheduling fuel tasks'
         = Returned (selected', total_profit') →
       selected ≡ₚ selected' ∧ total_profit = total_profit').
Proof.
  intros Hclaim.
  destruct (Hclaim 3%nat [tie_a; tie_b] [tie_b; tie_a] [tie_a] [tie_b] 3 3)
    as [Hsel _].
  - repeat constructor.
  - simpl. lia.
  - apply Permutation_swap.
  - vm_compute. reflexivity.
  - vm_compute. reflexivity.
  - apply Permutation_singleton_inj in Hsel. discriminate Hsel.
Qed.

(** C5, amended: on well-formed input every permutation of the input yields
    the same total profit, and it yields the same selected list whenever no
    two tasks of the input end at the same time. *)
Theorem schedule_order_invariance (fuel : nat) (tasks tasks' : list Task) :
  Forall well_formed tasks → tasks ≡ₚ tasks' → (length tasks < fuel)%nat →
  ∃ selected selected' total_profit,
    weighted_interval_scheduling fuel tasks = Returned (selected, total_profit)
    ∧ weighted_interval_scheduling fuel tasks' = Returned (selected', total_profit)
    ∧ (NoDup (end_time <$> tasks) → selected' = selected).
Proof.
  intros Hwf Hp Hfuel.
  destruct (schedule_total_Permutation fuel tasks tasks' Hwf Hp Hfuel)
    as (sel & sel' & tot & Hret & Hret').
  exists sel, sel', tot. split_and!; [done..|].
  intros Hnd.
  rewrite (schedule_sorted_eq fuel tasks tasks') in Hret
    by (by apply sorted_by_end_unique).
  congruence.
Qed.

Lemma schedule_order_invariance_witness :
  Forall well_formed demo_tasks ∧ demo_tasks ≡ₚ reverse demo_tasks
  ∧ (length demo_tasks < 6)%nat ∧ NoDup (end_time <$> demo_tasks) ∧
  ∃ selected selected' total_profit,
    weighted_interval_scheduling 6 demo_tasks = Returned (selected, total_profit)
    ∧ weighted_interval_scheduling 6 (reverse demo_tasks)
      = Returned (selected', total_profit)
    ∧ (NoDup (end_time <$> demo_tasks) → selected' = selected).
Proof.
  split; [exact demo_tasks_well_formed|].
  split; [symmetry; apply reverse_Permutation|].
  split; [exact demo_tasks_short|].
  split; [apply (bool_decide_unpack _); vm_compute; exact I|].
  exact (schedule_order_invariance 6 demo_tasks (reverse demo_tasks)
           demo_tasks_well_formed
           (Permutation_sym (reverse_Permutation demo_tasks))
           demo_tasks_short).
Defined.

(** C6: on well-formed input every permutation of the input yields the same
    total profit. *)
Theorem total_profit_order_invariant (fuel : nat) (tasks tasks' : list Task) :
  Forall well_formed tasks → tasks ≡ₚ tasks' → (length tasks < fuel)%nat →
  ∃ selected selected' total_profit,
    weighted_interval_scheduling fuel tasks = Returned (selected, total_profit)
    ∧ weighted_interval_scheduling fuel tasks' = Returned (selected', total_profit).
Proof. apply schedule_total_Permutation. Qed.

Lemma total_profit_order_invariant_witness :
  Forall well_formed [tie_a; tie_b] ∧ [tie_a; tie_b] ≡ₚ [tie_b; tie_a]
  ∧ (length [tie_a; tie_b] < 3)%nat ∧
  ∃ selected selected' total_profit,
    weighted_interval_scheduling 3 [tie_a; tie_b]
      = Returned (selected, total_profit)
    ∧ weighted_interval_scheduling 3 [tie_b; tie_a]
      = Returned (selected', total_profit).
Proof.
  assert (Forall well_formed [tie_a; tie_b]) as Hwf by repeat constructor.
  assert (length [tie_a; tie_b] < 3)%nat as Hlen by (simpl; lia).
  split; [exact Hwf|]. split; [apply Permutation_swap|]. split; [exact Hlen|].
  exact (total_profit_order_invariant 3 [tie_a; tie_b] [tie_b; tie_a]
           Hwf (Permutation_swap tie_b tie_a []) Hlen).
Defined.

(** C7: on well-formed input the selected list is in ascending order of end
    time. *)
Theorem selected_sorted_by_end (fuel : nat) (tasks : list Task) :
  Forall well_formed tasks → (length tasks < fuel)%nat →
  ∃ selected total_profit,
    weighted_interval_scheduling fuel tasks = Returned (selected, total_profit)
    ∧ StronglySorted end_le selected
    ∧ ∀ (i j : nat) (a b : Task),
        (i ≤ j)%nat → selected !! i = Some a → selected !! j = Some b →
        end_time a ≤ end_time b.
Proof.
  intros Hwf Hfuel.
  destruct (schedule_facts fuel tasks Hwf Hfuel) as (sel & tot & Hret & Hsub & _).
  assert (StronglySorted end_le sel) as Hs.
  { eapply sublist_StronglySorted; [exact Hsub|apply sorted_by_end_sorted]. }
  exists sel, tot. split_and!; [done..|].
  intros i j a b Hij Ha Hb. by apply (StronglySorted_end_lookup sel i j).
Qed.

Lemma selected_sorted_by_end_witness :
  Forall well_formed demo_tasks ∧ (length demo_tasks < 6)%nat ∧
  ∃ selected total_profit,
    weighted_interval_scheduling 6 demo_tasks = Returned (selected, total_profit)
    ∧ StronglySorted end_le selected
    ∧ ∀ (i j : nat) (a b : Task),
        (i ≤ j)%nat → selected !! i = Some a → selected !! j = Some b →
        end_time a ≤ end_time b.
Proof.
  split; [exact demo_tasks_well_formed|]. split; [exact demo_tasks_short|].
  exact (selected_sorted_by_end 6 demo_tasks
           demo_tasks_well_formed demo_tasks_short).
Defined.

(** C8: on well-formed input, for every index [i] of the sorted list, [p[i]]
    lies in [-1 .. i-1]; if it is not [-1] the task at [p[i]] ends no later
    than task [i] starts; every task that ends no later than task [i] starts
    has an index of at most [p[i]] (so [p[i]] is the largest such index, and
    it is [-1] exactly when there is none); and among tasks with the end time
    of the task at [p[i]], that task is the rightmost. *)
Theorem p_is_last_compatible_index (tasks : list Task) :
  Forall well_formed tasks →
  let ts := sorted_by_end tasks in
  ∃ p, p_phase ts = Returned p ∧ length p = length ts ∧
    ∀ (i : nat) (t : Task), ts !! i = Some t →
      ∃ pi, p !! i = Some pi
        ∧ -1 ≤ pi < Z.of_nat i
        ∧ (0 ≤ pi → ∃ v, ts !! Z.to_nat pi = Some v
                         ∧ end_time v ≤ start_time t)
        ∧ (∀ (j : nat) (u : Task), ts !! j = Some u →
             end_time u ≤ start_time t → Z.of_nat j ≤ pi)
        ∧ (pi = -1 ↔ ∀ (j : nat) (u : Task), ts !! j = Some u →
                       start_time t < end_time u)
        ∧ (∀ (j : nat) (u v : Task), 0 ≤ pi → ts !! Z.to_nat pi = Some v →
             ts !! j = Some u → end_time u = end_time v → Z.of_nat j ≤ pi).
Proof.
  intros Hwf ts.
  assert (StronglySorted end_le ts) as Hs by apply sorted_by_end_sorted.
  assert (Forall well_formed ts) as Hwf'.
  { subst ts. by rewrite sorted_by_end_Permutation. }
  exists (p_of ts). split_and!; [apply p_phase_returns|apply p_of_length|].
  intros i t Ht. exists (Z.of_nat (prefix_len ts t) - 1).
  pose proof (prefix_len_le ts Hs Hwf' i t Ht) as Hr.
  assert (i < length ts)%nat as Hi by eauto using lookup_lt_Some.
  assert (∀ (j : nat) (u : Task), ts !! j = Some u →
    end_time u ≤ start_time t → Z.of_nat j ≤ Z.of_nat (prefix_len ts t) - 1)
    as Hlargest.
  { intros j u Hu Hle.
    destruct (decide (j < prefix_len ts t)%nat) as [|Hge]; [lia|].
    pose proof (prefix_len_after ts Hs j t u ltac:(lia) Hu). lia. }
  assert (∀ v, 0 ≤ Z.of_nat (prefix_len ts t) - 1 →
    ts !! Z.to_nat (Z.of_nat (prefix_len ts t) - 1) = Some v →
    end_time v ≤ start_time t) as Hat.
  { intros v Hpos Hv.
    apply (prefix_len_before ts Hs (Z.to_nat (Z.of_nat (prefix_len ts t) - 1)));
      [lia|done]. }
  split_and!.
  - by apply p_of_lookup.
  - lia.
  - lia.
  - intros Hpos.
    destruct (lookup_lt_is_Some_2 ts (Z.to_nat (Z.of_nat (prefix_len ts t) - 1)))
      as [v Hv]; [lia|].
    exists v. split; [done|]. by apply Hat.
  - done.
  - split.
    + intros Hnone j u Hu. apply (prefix_len_after ts Hs j); [lia|done].
    + intros Hnone.
      destruct (decide (prefix_len ts t = 0)%nat) as [|Hne]; [lia|exfalso].
      destruct (lookup_lt_is_Some_2 ts 0) as [u Hu]; [lia|].
      pose proof (prefix_len_before ts Hs 0 t u ltac:(lia) Hu).
      specialize (Hnone 0%nat u Hu). lia.
  - intros j u v Hpos Hv Hu Heq. apply (Hlargest j u Hu).
    rewrite Heq. by apply Hat.
Qed.

Lemma p_is_last_compatible_index_witness :
  Forall well_formed demo_tasks ∧
  let ts := sorted_by_end demo_tasks in
  ∃ p, p_phase ts = Returned p ∧ length p = length ts ∧
    ∀ (i : nat) (t : Task), ts !! i = Some t →
      ∃ pi, p !! i = Some pi
        ∧ -1 ≤ pi < Z.of_nat i
        ∧ (0 ≤ pi → ∃ v, ts !! Z.to_nat pi = Some v
                         ∧ end_time v ≤ start_time t)
        ∧ (∀ (j : nat) (u : Task), ts !! j = Some u →
             end_time u ≤ start_time t → Z.of_nat j ≤ pi)
        ∧ (pi = -1 ↔ ∀ (j : nat) (u : Task), ts !! j = Some u →
                       start_time t < end_time u)
        ∧ (∀ (j : nat) (u v : Task), 0 ≤ pi → ts !! Z.to_nat pi = Some v →
             ts !! j = Some u → end_time u = end_time v → Z.of_nat j ≤ pi).
Proof.
  split; [exact demo_tasks_well_formed|].
  exact (p_is_last_compatible_index demo_tasks demo_tasks_well_formed).
Defined.

Example p_of_demo_tasks :
  p_phase (sorted_by_end demo_tasks) = Returned [-1; -1; 0; 1; 2].
Proof. vm_compute. reflexivity. Qed.

(** C9, as stated, fails: at index 0 of the sorted list [skip_a; skip_b]
    including beats excluding and [choose[0]] is set, yet the backtracking
    loop jumps from index 1 to -1 and never appends the task at index 0. *)
Lemma chosen_task_not_appended :
  ¬ (∀ (fuel : nat) (tasks selected : list Task) (total_profit : Z)
       (p dp : list Z) (choose : list bool) (i : nat) (t : Task) (inc exc : Z),
       Forall well_formed tasks → (length tasks < fuel)%nat →
       p_phase (sorted_by_end tasks) = Returned p →
       dp_phase (sorted_by_end tasks) p = Returned (dp, choose) →
       weighted_interval_scheduling fuel tasks
         = Returned (selected, total_profit) →
       sorted_by_end tasks !! i = Some t →
       include_profit (sorted_by_end tasks) p dp (Z.of_nat i) = Returned inc →
       exclude_profit dp (Z.of_nat i) = Returned exc →
       (exc < inc ↔ choose !! i = Some true ∧ t ∈ selected)).
Proof.
  intros Hclaim.
  destruct (Hclaim 3%nat [skip_a; skip_b] [skip_b] 100 [-1; -1] [1; 100]
              [true; true] 0%nat skip_a 1 0) as [Hfwd _].
  - repeat constructor.
  - simpl. lia.
  - vm_compute. reflexivity.
  - vm_compute. reflexivity.
  - vm_compute. reflexivity.
  - reflexivity.
  - vm_compute. reflexivity.
  - vm_compute. reflexivity.
  - destruct Hfwd as [_ Hin]; [lia|].
    apply list_elem_of_singleton in Hin. discriminate Hin.
Qed.

(** C9, amended: on well-formed input, at every index [i] of the sorted list
    [dp[i]] is the larger of [include(i)] and [exclude(i)] and [choose[i]] is
    set exactly when [include(i) > exclude(i)]; the selected list consists of
    the tasks at the indices the backtracking loop visits at which
    [include(i) > exclude(i)], so a visited task is appended exactly under
    the strict comparison and on a tie it is left out. *)
Theorem choose_and_append_by_strict_comparison (fuel : nat) (tasks : list Task) :
  Forall well_formed tasks → (length tasks < fuel)%nat →
  let ts := sorted_by_end tasks in
  ∃ p dp choose selected total_profit,
    p_phase ts = Returned p
    ∧ dp_phase ts p = Returned (dp, choose)
    ∧ weighted_interval_scheduling fuel tasks = Returned (selected, total_profit)
    ∧ (∀ i : nat, (i < length ts)%nat →
         ∃ inc exc,
           include_profit ts p dp (Z.of_nat i) = Returned inc
           ∧ exclude_profit dp (Z.of_nat i) = Returned exc
           ∧ dp !! i = Some (Z.max inc exc)
           ∧ choose !! i = Some (bool_decide (exc < inc)))
    ∧ selected
      = reverse (omap (appended_at ts p dp)
          (backtrack_visits fuel ts p dp (Z.of_nat (length ts) - 1) [])).
Proof.
  intros Hwf Hfuel ts.
  destruct (schedule_run fuel tasks Hwf Hfuel)
    as (dp & choose & sel & vis & Hdp & Hok & Hv & Hrun & Hret).
  fold ts in Hdp, Hok, Hv, Hrun, Hret.
  assert (StronglySorted end_le ts) as Hs by apply sorted_by_end_sorted.
  assert (Forall well_formed ts) as Hwf'.
  { subst ts. by rewrite sorted_by_end_Permutation. }
  exists (p_of ts), dp, choose, (reverse sel), (dpv dp (length ts)).
  split_and!; [apply p_phase_returns|done..| |].
  - intros i Hi. destruct (lookup_lt_is_Some_2 ts i) as [t Ht]; [done|].
    pose proof (dp_length ts dp choose Hok) as Hlen.
    pose proof (prefix_len_le ts Hs Hwf' i t Ht) as Hr.
    exists (include_val ts dp t), (dpv dp i). split_and!.
    + apply include_profit_eq; [done|lia].
    + apply exclude_profit_eq. lia.
    + pose proof (dp_rec ts dp choose Hok i t Ht) as Hrec. simpl in Hrec.
      destruct (lookup_lt_is_Some_2 dp i) as [v Hv']; [lia|].
      rewrite Hv' in Hrec. simpl in Hrec. by rewrite Hv', Hrec.
    + by apply (choose_rec ts dp choose Hok).
  - rewrite Hv. f_equal. by apply (bt_run_appended ts Hs Hwf' dp choose Hok _ _ _ Hrun).
Qed.

Lemma choose_and_append_by_strict_comparison_witness :
  Forall well_formed [skip_a; skip_b] ∧ (length [skip_a; skip_b] < 3)%nat ∧
  let ts := sorted_by_end [skip_a; skip_b] in
  ∃ p dp choose selected total_profit,
    p_phase ts = Returned p
    ∧ dp_phase ts p = Returned (dp, choose)
    ∧ weighted_interval_scheduling 3 [skip_a; skip_b]
      = Returned (selected, total_profit)
    ∧ (∀ i : nat, (i < length ts)%nat →
         ∃ inc exc,
           include_profit ts p dp (Z.of_nat i) = Returned inc
           ∧ exclude_profit dp (Z.of_nat i) = Returned exc
           ∧ dp !! i = Some (Z.max inc exc)
           ∧ choose !! i = Some (bool_decide (exc < inc)))
    ∧ selected
      = reverse (omap (appended_at ts p dp)
          (backtrack_visits 3 ts p dp (Z.of_nat (length ts) - 1) [])).
Proof.
  assert (Forall well_formed [skip_a; skip_b]) as Hwf by repeat constructor.
  assert (length [skip_a; skip_b] < 3)%nat as Hlen by (simpl; lia).
  split; [exact Hwf|]. split; [exact Hlen|].
  exact (choose_and_append_by_strict_comparison 3 [skip_a; skip_b] Hwf Hlen).
Defined.

(** C10: on well-formed input every selected task has a strictly positive
    profit and the total profit is not negative. *)
Theorem selected_profits_positive (fuel : nat) (tasks : list Task) :
  Forall well_formed tasks → (length tasks < fuel)%nat →
  ∃ selected total_profit,
    weighted_interval_scheduling fuel tasks = Returned (selected, total_profit)
    ∧ (∀ t, t ∈ selected → 0 < profit t)
    ∧ 0 ≤ total_profit.
Proof.
  intros Hwf Hfuel.
  destruct (schedule_facts fuel tasks Hwf Hfuel)
    as (sel & tot & Hret & _ & _ & _ & Hpos & Htot & _).
  exists sel, tot. split_and!; [done| |done].
  by apply Forall_forall.
Qed.

Lemma selected_profits_positive_witness :
  Forall well_formed demo_tasks ∧ (length demo_tasks < 6)%nat ∧
  ∃ selected total_profit,
    weighted_interval_scheduling 6 demo_tasks = Returned (selected, total_profit)
    ∧ (∀ t, t ∈ selected → 0 < profit t)
    ∧ 0 ≤ total_profit.
Proof.
  split; [exact demo_tasks_well_formed|]. split; [exact demo_tasks_short|].
  exact (selected_profits_positive 6 demo_tasks
           demo_tasks_well_formed demo_tasks_short).
Defined.

(** Only tasks without profit: nothing is selected. *)
Example schedule_no_profit :
  weighted_interval_scheduling 3 [T 1 0 5 (-1); T 1 0 5 0] = Returned ([], 0).
Proof. vm_compute. reflexivity. Qed.

Example schedule_demo_tasks :
  weighted_interval_scheduling 6 demo_tasks
  = Returned ([T 9 0 5 6; T 5 8 12 3], 9).
Proof. vm_compute. reflexivity. Qed.

(** Without well-formedness the loop need not stop: a task that ends when it
    starts is its own predecessor. *)
Example schedule_ill_formed_loops (fuel : nat) :
  weighted_interval_scheduling fuel [T 1 5 5 1] = OutOfFuel.
Proof.
  unfold weighted_interval_scheduling.
  change (p_phase (sorted_by_end [T 1 5 5 1])) with (Returned [0]).
  rewrite bind_Returned.
  change (dp_phase (sorted_by_end [T 1 5 5 1]) [0])
    with (Returned ([1], [true])).
  rewrite bind_Returned.
  assert (∀ acc, backtrack fuel [T 1 5 5 1] [0] [1] 0 acc = OutOfFuel) as Hloop.
  { induction fuel as [|fuel IH]; intros acc; [done|].
    simpl. apply IH. }
  change (sorted_by_end [T 1 5 5 1]) with [T 1 5 5 1]. simpl length.
  change (Z.of_nat 1 - 1) with 0. by rewrite Hloop.
Qed.

(** * Further properties of the scheduler *)

(** ** No subscript is ever out of range *)

Lemma bisect_loop_le (fuel : nat) (a : list Z) (x : Z) (lo hi : nat) :
  (lo ≤ hi)%nat → (bisect_loop fuel a x lo hi ≤ hi)%nat.
Proof.
  revert lo hi. induction fuel as [|fuel IH]; intros lo hi Hle;
    cbn [bisect_loop]; [done|].
  destruct (decide (lo < hi)%nat) as [Hlt|_]; [|done].
  cbv zeta. remember ((lo + hi) `div` 2)%nat as mid eqn:Emid.
  assert (lo ≤ mid < hi)%nat as Hmid.
  { subst mid. split.
    - apply Nat.div_le_lower_bound; lia.
    - apply Nat.Div0.div_lt_upper_bound; lia. }
  destruct (a !! mid) as [am|]; [|done].
  destruct (decide (x < am)).
  - etrans; [apply IH; lia|lia].
  - apply IH. lia.
Qed.

Lemma prefix_len_bound (ts : list Task) (t : Task) :
  (prefix_len ts t ≤ length ts)%nat.
Proof.
  unfold prefix_len. etrans; [apply bisect_loop_le; lia|].
  by rewrite length_fmap.
Qed.

Lemma dp_phase_lengths (ts : list Task) :
  ∃ dp choose, dp_phase ts (p_of ts) = Returned (dp, choose)
               ∧ length dp = length ts ∧ length choose = length ts.
Proof.
  unfold dp_phase.
  destruct (for_loop_range_inv
    (λ _ st, length st.1 = length ts ∧ length st.2 = length ts)
    (dp_body ts (p_of ts)) (length ts)
    (replicate (length ts) 0, replicate (length ts) false))
    as ([dp choose] & Hrun & Hdp & Hch).
  - simpl. by rewrite !length_replicate.
  - intros k [dp choose] Hk [Hdp Hch]. simpl in Hdp, Hch.
    destruct (lookup_lt_is_Some_2 ts k) as [t Ht]; [done|].
    pose proof (prefix_len_bound ts t) as Hr.
    unfold dp_body.
    rewrite (include_profit_eq _ _ _ _ Ht), bind_Returned by lia.
    rewrite exclude_profit_eq, bind_Returned by lia.
    destruct (decide _);
      rewrite !py_setitem_nat, !bind_Returned by lia;
      (eexists; split; [reflexivity|]); simpl; by rewrite !length_insert.
  - by exists dp, choose.
Qed.

Lemma backtrack_step_general (ts : list Task) (dp : list Z) (i : nat) (t : Task)
    (acc : list Task) :
  ts !! i = Some t → length dp = length ts →
  backtrack_step ts (p_of ts) dp (Z.of_nat i) acc
  = Returned (if decide (dpv dp i < include_val ts dp t)
              then (Z.of_nat (prefix_len ts t) - 1, acc ++ [t])
              else (Z.of_nat i - 1, acc)).
Proof.
  intros Ht Hlen.
  assert (i < length ts)%nat as Hi by eauto using lookup_lt_Some.
  pose proof (prefix_len_bound ts t) as Hr.
  unfold backtrack_step.
  rewrite (include_profit_eq _ _ _ _ Ht), bind_Returned by lia.
  rewrite exclude_profit_eq, bind_Returned by lia.
  destruct (decide _); [|done].
  rewrite (py_index_nat _ _ _ Ht), bind_Returned.
  by rewrite (py_index_nat _ _ _ (p_of_lookup _ _ _ Ht)), bind_Returned.
Qed.

Lemma backtrack_no_IndexError (ts : list Task) (dp : list Z) (fuel k : nat)
    (acc : list Task) :
  length dp = length ts → (k ≤ length ts)%nat →
  backtrack fuel ts (p_of ts) dp (Z.of_nat k - 1) acc ≠ IndexError.
Proof.
  intros Hlen. revert k acc.
  induction fuel as [|fuel IH]; intros k acc Hk; [done|].
  destruct k as [|i]; simpl backtrack.
  - by destruct (decide (0 ≤ Z.of_nat 0 - 1)) as [?|_]; [lia|].
  - destruct (decide (0 ≤ Z.of_nat (S i) - 1)) as [_|?]; [|lia].
    replace (Z.of_nat (S i) - 1) with (Z.of_nat i) by lia.
    destruct (lookup_lt_is_Some_2 ts i) as [t Ht]; [lia|].
    rewrite (backtrack_step_general ts dp i t acc Ht Hlen), bind_Returned.
    pose proof (prefix_len_bound ts t).
    destruct (decide _); apply IH; lia.
Qed.

(** X1: on every input, well formed or not, no subscript of the function is
    out of range: it never raises [IndexError]. *)
Theorem schedule_never_raises (fuel : nat) (tasks : list Task) :
  weighted_interval_scheduling fuel tasks ≠ IndexError.
Proof.
  unfold weighted_interval_scheduling. destruct tasks as [|t0 tasks']; [done|].
  set (ts := sorted_by_end (t0 :: tasks')).
  assert (length ts = S (length tasks')) as Hn by apply sorted_by_end_length.
  rewrite p_phase_returns, bind_Returned.
  destruct (dp_phase_lengths ts) as (dp & choose & Hdp & Hlen & _).
  rewrite Hdp, bind_Returned.
  pose proof (backtrack_no_IndexError ts dp fuel (length ts) [] Hlen
                ltac:(done)) as Hbt.
  destruct (backtrack fuel ts (p_of ts) dp (Z.of_nat (length ts) - 1) [])
    as [sel| |]; [|done..].
  rewrite bind_Returned.
  destruct (lookup_lt_is_Some_2 dp (length tasks')) as [v Hv]; [lia|].
  rewrite (py_index_last dp v); [done|].
  by rewrite Hlen, Hn.
Qed.

(** X2: a single task that does not end after it starts and has a positive
    profit makes the backtracking loop run forever: the function does not
    return, whatever the number of iterations allowed. *)
Theorem schedule_loops_on_degenerate_task (fuel : nat) (t : Task) :
  end_time t ≤ start_time t → 0 < profit t →
  weighted_interval_scheduling fuel [t] = OutOfFuel.
Proof.
  intros Hdeg Hpos. unfold weighted_interval_scheduling.
  rewrite p_phase_returns, bind_Returned.
  assert (p_of (sorted_by_end [t]) = [0]) as Hp.
  { unfold p_of, bisect_right. simpl.
    destruct (decide (start_time t < end_time t)); [lia|done]. }
  rewrite Hp. simpl sorted_by_end.
  assert (dp_phase [t] [0] = Returned ([profit t], [true])) as Hdp.
  { unfold dp_phase. simpl. unfold dp_body, include_profit, exclude_profit.
    simpl. destruct (decide (0 < profit t + 0)); [|lia].
    simpl. repeat f_equal. lia. }
  rewrite Hdp, bind_Returned.
  assert (∀ acc, backtrack fuel [t] [0] [profit t] 0 acc = OutOfFuel) as Hloop.
  { induction fuel as [|fuel IH]; intros acc; [done|].
    simpl. unfold backtrack_step, include_profit, exclude_profit. simpl.
    destruct (decide (0 < profit t + profit t)); [|lia]. simpl. apply IH. }
  simpl length. change (Z.of_nat 1 - 1) with 0. by rewrite Hloop.
Qed.

Lemma schedule_loops_on_degenerate_task_witness :
  end_time (T 1 5 5 1) ≤ start_time (T 1 5 5 1) ∧ 0 < profit (T 1 5 5 1)
  ∧ weighted_interval_scheduling 100 [T 1 5 5 1] = OutOfFuel.
Proof.
  assert (end_time (T 1 5 5 1) ≤ start_time (T 1 5 5 1)) as H1 by (simpl; lia).
  assert (0 < profit (T 1 5 5 1)) as H2 by (simpl; lia).
  split; [exact H1|]. split; [exact H2|].
  exact (schedule_loops_on_degenerate_task 100 (T 1 5 5 1) H1 H2).
Defined.

(** ** The table of best profits *)

Lemma sorted_input_facts (tasks : list Task) :
  Forall well_formed tasks →
  StronglySorted end_le (sorted_by_end tasks)
  ∧ Forall well_formed (sorted_by_end tasks).
Proof.
  intros Hwf. split; [apply sorted_by_end_sorted|].
  by rewrite sorted_by_end_Permutation.
Qed.

(** X3: on well-formed input [dp[i]] is the best profit using the tasks up to
    index [i] of the sorted list: some conflict-free sub-multiset of the
    first [i + 1] tasks earns [dp[i]] and none earns more. *)
Theorem dp_is_best_profit_of_prefix (tasks : list Task) :
  Forall well_formed tasks →
  let ts := sorted_by_end tasks in
  ∃ p dp choose,
    p_phase ts = Returned p ∧ dp_phase ts p = Returned (dp, choose)
    ∧ length dp = length ts
    ∧ ∀ (i : nat) (v : Z), dp !! i = Some v →
        (∃ s, s ⊆+ take (S i) ts ∧ non_conflicting s ∧ sum_profit s = v)
        ∧ (∀ s, s ⊆+ take (S i) ts → non_conflicting s → sum_profit s ≤ v).
Proof.
  intros Hwf ts. destruct (sorted_input_facts tasks Hwf) as [Hs Hwf'].
  fold ts in Hs, Hwf'.
  destruct (dp_phase_returns ts Hs Hwf') as (dp & choose & Hdp & Hok).
  pose proof (dp_length ts dp choose Hok) as Hlen.
  exists (p_of ts), dp, choose.
  split_and!; [apply p_phase_returns|done..|].
  intros i v Hv.
  assert (i < length ts)%nat as Hi by (apply lookup_lt_Some in Hv; lia).
  assert (dpv dp (S i) = v) as Hval by (simpl; by rewrite Hv).
  split.
  - destruct (backtrack_run ts Hs Hwf' dp choose Hok (S (S i)) (S i) [])
      as (sel & vis & _ & _ & Hrun); [lia..|].
    exists (reverse sel). split_and!.
    + apply sublist_submseteq. by eapply bt_run_sublist.
    + eapply non_conflicting_Permutation; [symmetry; apply reverse_Permutation|].
      by eapply bt_run_compatible.
    + rewrite sum_profit_reverse, <-Hval. by eapply bt_run_sum.
  - intros s Hsub Hnc. rewrite <-Hval.
    apply (dpv_upper_bound ts Hs Hwf' dp choose Hok); [lia|done..].
Qed.

Lemma dp_is_best_profit_of_prefix_witness :
  Forall well_formed demo_tasks ∧
  let ts := sorted_by_end demo_tasks in
  ∃ p dp choose,
    p_phase ts = Returned p ∧ dp_phase ts p = Returned (dp, choose)
    ∧ length dp = length ts
    ∧ ∀ (i : nat) (v : Z), dp !! i = Some v →
        (∃ s, s ⊆+ take (S i) ts ∧ non_conflicting s ∧ sum_profit s = v)
        ∧ (∀ s, s ⊆+ take (S i) ts → non_conflicting s → sum_profit s ≤ v).
Proof.
  split; [exact demo_tasks_well_formed|].
  exact (dp_is_best_profit_of_prefix demo_tasks demo_tasks_well_formed).
Defined.

(** X4: on well-formed input the table is non-negative and never decreases
    along the sorted list. *)
Theorem dp_nonnegative_and_monotone (tasks : list Task) :
  Forall well_formed tasks →
  let ts := sorted_by_end tasks in
  ∃ p dp choose,
    p_phase ts = Returned p ∧ dp_phase ts p = Returned (dp, choose)
    ∧ ∀ (i j : nat) (v w : Z),
        (i ≤ j)%nat → dp !! i = Some v → dp !! j = Some w → 0 ≤ v ≤ w.
Proof.
  intros Hwf ts. destruct (sorted_input_facts tasks Hwf) as [Hs Hwf'].
  fold ts in Hs, Hwf'.
  destruct (dp_phase_returns ts Hs Hwf') as (dp & choose & Hdp & Hok).
  pose proof (dp_length ts dp choose Hok) as Hlen.
  exists (p_of ts), dp, choose. split_and!; [apply p_phase_returns|done|].
  intros i j v w Hij Hv Hw.
  assert (j < length ts)%nat as Hj by (apply lookup_lt_Some in Hw; lia).
  pose proof (dpv_nonneg ts dp choose Hok (S i) ltac:(lia)) as H0.
  pose proof (dpv_mono ts dp choose Hok (S i) (S j) ltac:(lia)) as Hm.
  simpl in H0, Hm. rewrite Hv in H0, Hm. rewrite Hw in Hm. simpl in *. lia.
Qed.

Lemma dp_nonnegative_and_monotone_witness :
  Forall well_formed demo_tasks ∧
  let ts := sorted_by_end demo_tasks in
  ∃ p dp choose,
    p_phase ts = Returned p ∧ dp_phase ts p = Returned (dp, choose)
    ∧ ∀ (i j : nat) (v w : Z),
        (i ≤ j)%nat → dp !! i = Some v → dp !! j = Some w → 0 ≤ v ≤ w.
Proof.
  split; [exact demo_tasks_well_formed|].
  exact (dp_nonnegative_and_monotone demo_tasks demo_tasks_well_formed).
Defined.

(** ** The backtracking loop *)

Lemma bt_run_visits (ts : list Task) (dp : list Z) (k : nat)
    (sel : list Task) (vis : list Z) :
  StronglySorted end_le ts → Forall well_formed ts →
  bt_run ts dp k sel vis →
  Forall (λ i, 0 ≤ i < Z.of_nat k) vis ∧ StronglySorted (λ i j, j < i) vis.
Proof.
  intros Hs Hwf.
  induction 1 as [|i t sel vis Ht Hlt Hrun [IH1 IH2]
                  |i t sel vis Ht Hge Hrun [IH1 IH2]].
  - split; constructor.
  - pose proof (prefix_len_le ts Hs Hwf i t Ht) as Hr. split.
    + constructor; [lia|]. eapply Forall_impl; [exact IH1|]. simpl. lia.
    + constructor; [done|]. eapply Forall_impl; [exact IH1|]. simpl. lia.
  - split.
    + constructor; [lia|]. eapply Forall_impl; [exact IH1|]. simpl. lia.
    + constructor; [done|]. eapply Forall_impl; [exact IH1|]. simpl. lia.
Qed.

(** X5: on well-formed input the backtracking loop runs its body at strictly
    decreasing indices of the sorted list, so at each index at most once and
    at most [len(tasks)] times in all. *)
Theorem backtrack_visits_decrease (fuel : nat) (tasks : list Task) :
  Forall well_formed tasks → (length tasks < fuel)%nat →
  let ts := sorted_by_end tasks in
  ∃ p dp choose,
    p_phase ts = Returned p ∧ dp_phase ts p = Returned (dp, choose)
    ∧ let vis := backtrack_visits fuel ts p dp (Z.of_nat (length ts) - 1) [] in
      StronglySorted (λ i j, j < i) vis
      ∧ Forall (λ i, 0 ≤ i < Z.of_nat (length ts)) vis
      ∧ (length vis ≤ length tasks)%nat.
Proof.
  intros Hwf Hfuel ts.
  destruct (schedule_run fuel tasks Hwf Hfuel)
    as (dp & choose & sel & vis & Hdp & Hok & Hv & Hrun & _).
  fold ts in Hdp, Hok, Hv, Hrun.
  destruct (sorted_input_facts tasks Hwf) as [Hs Hwf']. fold ts in Hs, Hwf'.
  exists (p_of ts), dp, choose. split_and!; [apply p_phase_returns|done|].
  cbv zeta. rewrite Hv.
  destruct (bt_run_visits ts dp _ _ _ Hs Hwf' Hrun) as [Hrange Hdec].
  split_and!; [done..|].
  assert (∀ (l : list Z) (n : nat),
    Forall (λ i, 0 ≤ i < Z.of_nat n) l → StronglySorted (λ i j, j < i) l →
    (length l ≤ n)%nat) as Hcount.
  { clear. induction l as [|x l IH]; intros n Hr Hd; simpl; [lia|].
    apply Forall_cons in Hr as [Hx Hr].
    apply StronglySorted_inv in Hd as [Hd Hlt].
    destruct n as [|n]; [lia|].
    assert (length l ≤ n)%nat; [|lia]. apply IH; [|done].
    rewrite Forall_forall in Hr, Hlt |- *. intros y Hy.
    specialize (Hr y Hy). specialize (Hlt y Hy). simpl in Hlt. lia. }
  rewrite <-(sorted_by_end_length tasks). by apply Hcount.
Qed.

Lemma backtrack_visits_decrease_witness :
  Forall well_formed demo_tasks ∧ (length demo_tasks < 6)%nat ∧
  let ts := sorted_by_end demo_tasks in
  ∃ p dp choose,
    p_phase ts = Returned p ∧ dp_phase ts p = Returned (dp, choose)
    ∧ let vis := backtrack_visits 6 ts p dp (Z.of_nat (length ts) - 1) [] in
      StronglySorted (λ i j, j < i) vis
      ∧ Forall (λ i, 0 ≤ i < Z.of_nat (length ts)) vis
      ∧ (length vis ≤ length demo_tasks)%nat.
Proof.
  split; [exact demo_tasks_well_formed|]. split; [exact demo_tasks_short|].
  exact (backtrack_visits_decrease 6 demo_tasks
           demo_tasks_well_formed demo_tasks_short).
Defined.

(** ** The shape of the selection *)

Lemma sum_profit_app (s1 s2 : list Task) :
  sum_profit (s1 ++ s2) = sum_profit s1 + sum_profit s2.
Proof. induction s1 as [|t s1 IH]; simpl; lia. Qed.

Lemma sum_profit_nonneg (s : list Task) :
  Forall (λ t, 0 ≤ profit t) s → 0 ≤ sum_profit s.
Proof. induction 1; simpl; lia. Qed.

Lemma submseteq_sum_profit (s l : list Task) :
  s ⊆+ l → Forall (λ t, 0 ≤ profit t) l → sum_profit s ≤ sum_profit l.
Proof.
  intros [k Hk]%submseteq_Permutation Hl.
  rewrite (sum_profit_Permutation _ _ Hk), sum_profit_app.
  rewrite Hk in Hl. apply Forall_app in Hl as [_ Hl].
  pose proof (sum_profit_nonneg k Hl). lia.
Qed.

(** Leaving out a task of positive profit lowers the sum. *)
Lemma sublist_sum_profit (s l : list Task) :
  s `sublist_of` l → Forall (λ t, 0 < profit t) l →
  sum_profit s ≤ sum_profit l ∧ (sum_profit l ≤ sum_profit s → s = l).
Proof.
  induction 1 as [|x s l Hsub IH|x s l Hsub IH]; intros Hpos.
  - done.
  - apply Forall_cons in Hpos as [Hx Hpos]. destruct (IH Hpos) as [Hle Heq].
    simpl. split; [lia|]. intros Hsum. f_equal. apply Heq. lia.
  - apply Forall_cons in Hpos as [Hx Hpos]. destruct (IH Hpos) as [Hle Heq].
    simpl. split; [lia|]. intros Hsum. lia.
Qed.

(** A list already in ascending order of end time is left as it is. *)
Lemma sorted_by_end_id (l : list Task) :
  StronglySorted end_le l → sorted_by_end l = l.
Proof.
  induction 1 as [|x l Hs IH Hx]; simpl; [done|]. rewrite IH.
  destruct l as [|u l']; simpl; [done|].
  apply Forall_cons in Hx as [Hxu _]. unfold end_le in Hxu.
  by destruct (decide (end_time x ≤ end_time u)).
Qed.

Lemma selected_chain (sel : list Task) (i j : nat) (a b : Task) :
  StronglySorted end_le sel → non_conflicting sel → Forall well_formed sel →
  (i < j)%nat → sel !! i = Some a → sel !! j = Some b →
  end_time a ≤ start_time b.
Proof.
  intros Hs Hnc Hwf Hij Ha Hb.
  pose proof (StronglySorted_end_lookup sel i j a b Hs ltac:(lia) Ha Hb) as Hle.
  assert (well_formed a) as Hwa.
  { rewrite Forall_forall in Hwf. apply Hwf. eapply list_elem_of_lookup_2; eauto. }
  destruct (non_conflicting_lookup sel i j a b Hnc ltac:(lia) Ha Hb) as [?|?];
    [done|]. unfold well_formed in Hwa. lia.
Qed.

Lemma selected_well_formed (tasks sel : list Task) :
  Forall well_formed tasks → sel `sublist_of` sorted_by_end tasks →
  Forall well_formed sel.
Proof.
  intros Hwf Hsub. rewrite Forall_forall in Hwf |- *. intros t Ht. apply Hwf.
  rewrite <-(sorted_by_end_Permutation tasks). eapply elem_of_sublist; eauto.
Qed.

(** X6: on well-formed input every selected task ends no later than each
    later selected task starts, so the selected list is strictly ascending
    both in start time and in end time. *)
Theorem selected_is_chain (fuel : nat) (tasks : list Task) :
  Forall well_formed tasks → (length tasks < fuel)%nat →
  ∃ selected total_profit,
    weighted_interval_scheduling fuel tasks = Returned (selected, total_profit)
    ∧ ∀ (i j : nat) (a b : Task),
        (i < j)%nat → selected !! i = Some a → selected !! j = Some b →
        end_time a ≤ start_time b
        ∧ start_time a < start_time b ∧ end_time a < end_time b.
Proof.
  intros Hwf Hfuel.
  destruct (schedule_facts fuel tasks Hwf Hfuel)
    as (sel & tot & Hret & Hsub & Hnc & _).
  exists sel, tot. split; [done|]. intros i j a b Hij Ha Hb.
  assert (StronglySorted end_le sel) as Hs.
  { eapply sublist_StronglySorted; [exact Hsub|apply sorted_by_end_sorted]. }
  pose proof (selected_well_formed tasks sel Hwf Hsub) as Hwfs.
  pose proof (selected_chain sel i j a b Hs Hnc Hwfs Hij Ha Hb).
  rewrite Forall_lookup in Hwfs.
  pose proof (Hwfs i a Ha) as Hwa. pose proof (Hwfs j b Hb) as Hwb.
  unfold well_formed in *. lia.
Qed.

Lemma selected_is_chain_witness :
  Forall well_formed demo_tasks ∧ (length demo_tasks < 6)%nat ∧
  ∃ selected total_profit,
    weighted_interval_scheduling 6 demo_tasks = Returned (selected, total_profit)
    ∧ ∀ (i j : nat) (a b : Task),
        (i < j)%nat → selected !! i = Some a → selected !! j = Some b →
        end_time a ≤ start_time b
        ∧ start_time a < start_time b ∧ end_time a < end_time b.
Proof.
  split; [exact demo_tasks_well_formed|]. split; [exact demo_tasks_short|].
  exact (selected_is_chain 6 demo_tasks demo_tasks_well_formed demo_tasks_short).
Defined.

(** When nothing conflicts and every profit is positive, everything is
    selected. *)
Lemma schedule_all_selected (fuel : nat) (tasks : list Task) :
  Forall well_formed tasks → (length tasks < fuel)%nat →
  non_conflicting tasks → Forall (λ t, 0 < profit t) tasks →
  weighted_interval_scheduling fuel tasks
  = Returned (sorted_by_end tasks, sum_profit tasks).
Proof.
  intros Hwf Hfuel Hnc Hpos.
  destruct (schedule_facts fuel tasks Hwf Hfuel)
    as (sel & tot & Hret & Hsub & _ & Hsum & _ & _ & Hmax).
  specialize (Hmax tasks ltac:(done) Hnc).
  assert (Forall (λ t, 0 < profit t) (sorted_by_end tasks)) as Hpos'.
  { by rewrite sorted_by_end_Permutation. }
  destruct (sublist_sum_profit sel (sorted_by_end tasks) Hsub Hpos') as [_ Heq].
  rewrite (sum_profit_Permutation _ _ (sorted_by_end_Permutation tasks)) in Heq.
  rewrite Hret. f_equal. f_equal; [apply Heq; lia|].
  rewrite <-Hsum. rewrite Heq by lia.
  apply sum_profit_Permutation, sorted_by_end_Permutation.
Qed.

(** X7: when the tasks of a well-formed input are pairwise conflict-free and
    all have a positive profit, all of them are selected, in ascending order
    of end time, and the total is the sum of all profits. *)
Theorem conflict_free_input_selected_entirely (fuel : nat) (tasks : list Task) :
  Forall well_formed tasks → (length tasks < fuel)%nat →
  non_conflicting tasks → Forall (λ t, 0 < profit t) tasks →
  weighted_interval_scheduling fuel tasks
  = Returned (sorted_by_end tasks, sum_profit tasks).
Proof. apply schedule_all_selected. Qed.

Lemma conflict_free_input_selected_entirely_witness :
  let tasks := [T 2 5 10 4; T 1 0 5 3] in
  Forall well_formed tasks ∧ (length tasks < 3)%nat
  ∧ non_conflicting tasks ∧ Forall (λ t, 0 < profit t) tasks
  ∧ weighted_interval_scheduling 3 tasks
    = Returned (sorted_by_end tasks, sum_profit tasks).
Proof.
  cbv zeta.
  assert (Forall well_formed [T 2 5 10 4; T 1 0 5 3]) as H1
    by repeat constructor.
  assert (length [T 2 5 10 4; T 1 0 5 3] < 3)%nat as H2 by (simpl; lia).
  assert (non_conflicting [T 2 5 10 4; T 1 0 5 3]) as H3.
  { constructor; [|repeat constructor].
    constructor; [|constructor]. right. simpl. lia. }
  assert (Forall (λ t, 0 < profit t) [T 2 5 10 4; T 1 0 5 3]) as H4
    by repeat constructor.
  split_and!; [done..|].
  exact (conflict_free_input_selected_entirely 3 _ H1 H2 H3 H4).
Defined.

(** X8: scheduling the selected list again changes nothing: on well-formed
    input the function applied to its own selection returns that selection
    and the same total. *)
Theorem schedule_idempotent (fuel : nat) (tasks : list Task) :
  Forall well_formed tasks → (length tasks < fuel)%nat →
  ∃ selected total_profit,
    weighted_interval_scheduling fuel tasks = Returned (selected, total_profit)
    ∧ weighted_interval_scheduling fuel selected
      = Returned (selected, total_profit).
Proof.
  intros Hwf Hfuel.
  destruct (schedule_facts fuel tasks Hwf Hfuel)
    as (sel & tot & Hret & Hsub & Hnc & Hsum & Hpos & _).
  exists sel, tot. split; [done|].
  assert (StronglySorted end_le sel) as Hs.
  { eapply sublist_StronglySorted; [exact Hsub|apply sorted_by_end_sorted]. }
  pose proof (selected_well_formed tasks sel Hwf Hsub) as Hwfs.
  assert (length sel < fuel)%nat as Hlen.
  { apply sublist_length in Hsub. rewrite sorted_by_end_length in Hsub. lia. }
  rewrite (schedule_all_selected fuel sel Hwfs Hlen Hnc Hpos).
  by rewrite (sorted_by_end_id sel Hs), Hsum.
Qed.

Lemma schedule_idempotent_witness :
  Forall well_formed demo_tasks ∧ (length demo_tasks < 6)%nat ∧
  ∃ selected total_profit,
    weighted_interval_scheduling 6 demo_tasks = Returned (selected, total_profit)
    ∧ weighted_interval_scheduling 6 selected
      = Returned (selected, total_profit).
Proof.
  split; [exact demo_tasks_well_formed|]. split; [exact demo_tasks_short|].
  exact (schedule_idempotent 6 demo_tasks demo_tasks_well_formed demo_tasks_short).
Defined.

(** ** Changing the input *)

Lemma filter_Forall_id {A} (P : A → Prop) `{!∀ x, Decision (P x)} (l : list A) :
  Forall P l → filter P l = l.
Proof.
  induction 1 as [|x l Hx Hl IH]; [done|].
  rewrite filter_cons. destruct (decide (P x)); [|done]. by rewrite IH.
Qed.

Lemma submseteq_filter_Forall {A} (P : A → Prop) `{!∀ x, Decision (P x)}
    (s l : list A) :
  s ⊆+ l → Forall P s → s ⊆+ filter P l.
Proof.
  intros [k Hk]%submseteq_Permutation Hs.
  rewrite Hk, filter_app, (filter_Forall_id P s Hs).
  by apply submseteq_inserts_r.
Qed.

Lemma submseteq_well_formed (tasks tasks' : list Task) :
  tasks ⊆+ tasks' → Forall well_formed tasks' → Forall well_formed tasks.
Proof.
  intros Hsub Hwf. rewrite Forall_forall in Hwf |- *. intros t Ht.
  apply Hwf. eapply elem_of_submseteq; eauto.
Qed.

(** X9: adding tasks never lowers the total: when the input is a
    sub-multiset of a larger well-formed input, its total profit is at most
    the total profit of the larger one. *)
Theorem total_profit_monotone (fuel : nat) (tasks tasks' : list Task) :
  Forall well_formed tasks' → tasks ⊆+ tasks' → (length tasks' < fuel)%nat →
  ∃ selected total_profit selected' total_profit',
    weighted_interval_scheduling fuel tasks = Returned (selected, total_profit)
    ∧ weighted_interval_scheduling fuel tasks'
      = Returned (selected', total_profit')
    ∧ total_profit ≤ total_profit'.
Proof.
  intros Hwf' Hsub Hfuel'.
  pose proof (submseteq_well_formed _ _ Hsub Hwf') as Hwf.
  assert (length tasks < fuel)%nat as Hfuel.
  { apply submseteq_length in Hsub. lia. }
  destruct (schedule_facts fuel tasks Hwf Hfuel)
    as (sel & tot & Hret & Hss & Hnc & Hsum & _).
  destruct (schedule_facts fuel tasks' Hwf' Hfuel')
    as (sel' & tot' & Hret' & _ & _ & _ & _ & _ & Hmax').
  exists sel, tot, sel', tot'. split_and!; [done..|].
  rewrite <-Hsum. apply Hmax'; [|done].
  etrans; [|exact Hsub].
  rewrite <-(sorted_by_end_Permutation tasks). by apply sublist_submseteq.
Qed.

Lemma total_profit_monotone_witness :
  Forall well_formed demo_tasks ∧ take 3 demo_tasks ⊆+ demo_tasks
  ∧ (length demo_tasks < 6)%nat ∧
  ∃ selected total_profit selected' total_profit',
    weighted_interval_scheduling 6 (take 3 demo_tasks)
      = Returned (selected, total_profit)
    ∧ weighted_interval_scheduling 6 demo_tasks
      = Returned (selected', total_profit')
    ∧ total_profit ≤ total_profit'.
Proof.
  assert (take 3 demo_tasks ⊆+ demo_tasks) as Hsub by apply submseteq_take.
  split; [exact demo_tasks_well_formed|]. split; [exact Hsub|].
  split; [exact demo_tasks_short|].
  exact (total_profit_monotone 6 (take 3 demo_tasks) demo_tasks
           demo_tasks_well_formed Hsub demo_tasks_short).
Defined.

(** X10: tasks without positive profit do not matter for the total: on
    well-formed input, removing every task whose profit is zero or negative
    leaves the total profit unchanged. *)
Theorem nonpositive_tasks_do_not_change_total (fuel : nat) (tasks : list Task) :
  Forall well_formed tasks → (length tasks < fuel)%nat →
  ∃ selected selected' total_profit,
    weighted_interval_scheduling fuel tasks = Returned (selected, total_profit)
    ∧ weighted_interval_scheduling fuel (filter (λ t, 0 < profit t) tasks)
      = Returned (selected', total_profit).
Proof.
  intros Hwf Hfuel.
  set (pos := filter (λ t, 0 < profit t) tasks).
  assert (pos ⊆+ tasks) as Hsub by apply sublist_submseteq, sublist_filter.
  pose proof (submseteq_well_formed _ _ Hsub Hwf) as Hwf'.
  assert (length pos < fuel)%nat as Hfuel'.
  { apply submseteq_length in Hsub. lia. }
  destruct (schedule_facts fuel tasks Hwf Hfuel)
    as (sel & tot & Hret & Hss & Hnc & Hsum & Hpos & _ & Hmax).
  destruct (schedule_facts fuel pos Hwf' Hfuel')
    as (sel' & tot' & Hret' & Hss' & Hnc' & Hsum' & _ & _ & Hmax').
  assert (sel ⊆+ tasks) as Hin.
  { rewrite <-(sorted_by_end_Permutation tasks). by apply sublist_submseteq. }
  assert (sel' ⊆+ tasks) as Hin'.
  { etrans; [|exact Hsub].
    rewrite <-(sorted_by_end_Permutation pos). by apply sublist_submseteq. }
  pose proof (Hmax sel' Hin' Hnc') as H1.
  pose proof (Hmax' sel (submseteq_filter_Forall _ sel tasks Hin Hpos) Hnc) as H2.
  assert (tot' = tot) as -> by lia.
  by exists sel, sel', tot.
Qed.

Lemma nonpositive_tasks_do_not_change_total_witness :
  Forall well_formed demo_tasks ∧ (length demo_tasks < 6)%nat ∧
  ∃ selected selected' total_profit,
    weighted_interval_scheduling 6 demo_tasks = Returned (selected, total_profit)
    ∧ weighted_interval_scheduling 6 (filter (λ t, 0 < profit t) demo_tasks)
      = Returned (selected', total_profit).
Proof.
  split; [exact demo_tasks_well_formed|]. split; [exact demo_tasks_short|].
  exact (nonpositive_tasks_do_not_change_total 6 demo_tasks
           demo_tasks_well_formed demo_tasks_short).
Defined.

(** X11: on well-formed input the total profit is at most the sum of the
    positive profits of the input, and at most the sum of all profits when
    none of them is negative. *)
Theorem total_profit_at_most_sum (fuel : nat) (tasks : list Task) :
  Forall well_formed tasks → (length tasks < fuel)%nat →
  ∃ selected total_profit,
    weighted_interval_scheduling fuel tasks = Returned (selected, total_profit)
    ∧ total_profit ≤ sum_profit (filter (λ t, 0 < profit t) tasks)
    ∧ (Forall (λ t, 0 ≤ profit t) tasks → total_profit ≤ sum_profit tasks).
Proof.
  intros Hwf Hfuel.
  destruct (schedule_facts fuel tasks Hwf Hfuel)
    as (sel & tot & Hret & Hss & _ & Hsum & Hpos & _).
  assert (sel ⊆+ tasks) as Hin.
  { rewrite <-(sorted_by_end_Permutation tasks). by apply sublist_submseteq. }
  exists sel, tot. split_and!; [done| |].
  - rewrite <-Hsum. apply submseteq_sum_profit.
    + by apply submseteq_filter_Forall.
    + apply Forall_forall. intros t [Ht _]%list_elem_of_filter. lia.
  - intros Hnn. rewrite <-Hsum. by apply submseteq_sum_profit.
Qed.

Lemma total_profit_at_most_sum_witness :
  Forall well_formed demo_tasks ∧ (length demo_tasks < 6)%nat ∧
  ∃ selected total_profit,
    weighted_interval_scheduling 6 demo_tasks = Returned (selected, total_profit)
    ∧ total_profit ≤ sum_profit (filter (λ t, 0 < profit t) demo_tasks)
    ∧ (Forall (λ t, 0 ≤ profit t) demo_tasks
       → total_profit ≤ sum_profit demo_tasks).
Proof.
  split; [exact demo_tasks_well_formed|]. split; [exact demo_tasks_short|].
  exact (total_profit_at_most_sum 6 demo_tasks
           demo_tasks_well_formed demo_tasks_short).
Defined.

(** ** The processing order *)

Lemma stable_sorted_unique (l1 l2 : list Task) :
  StronglySorted end_le l1 → StronglySorted end_le l2 →
  (∀ k : Z, filter (λ u, end_time u = k) l1 = filter (λ u, end_time u = k) l2) →
  l1 = l2.
Proof.
  intros Hs1. revert l2.
  induction Hs1 as [|x l1 Hs1 IH Hx]; intros l2 Hs2 Hf.
  - destruct l2 as [|y l2]; [done|]. specialize (Hf (end_time y)).
    rewrite filter_nil, filter_cons in Hf.
    by destruct (decide (end_time y = end_time y)).
  - destruct Hs2 as [|y l2 Hs2 Hy].
    { specialize (Hf (end_time x)). rewrite filter_nil, filter_cons in Hf.
      by destruct (decide (end_time x = end_time x)). }
    assert (end_time x ≤ end_time y) as Hxy.
    { assert (y ∈ filter (λ u, end_time u = end_time y) (x :: l1)) as Hin.
      { rewrite Hf, filter_cons.
        destruct (decide (end_time y = end_time y)); [left|done]. }
      apply list_elem_of_filter in Hin as [_ Hin].
      apply elem_of_cons in Hin as [->|Hin]; [done|].
      rewrite Forall_forall in Hx. by apply Hx. }
    assert (end_time y ≤ end_time x) as Hyx.
    { assert (x ∈ filter (λ u, end_time u = end_time x) (y :: l2)) as Hin.
      { rewrite <-Hf, filter_cons.
        destruct (decide (end_time x = end_time x)); [left|done]. }
      apply list_elem_of_filter in Hin as [_ Hin].
      apply elem_of_cons in Hin as [->|Hin]; [done|].
      rewrite Forall_forall in Hy. by apply Hy. }
    assert (x = y) as ->.
    { specialize (Hf (end_time x)). rewrite !filter_cons in Hf.
      destruct (decide (end_time x = end_time x)); [|done].
      destruct (decide (end_time y = end_time x)); [|lia]. by simplify_eq. }
    f_equal. apply IH; [done|]. intros k. specialize (Hf k).
    rewrite !filter_cons in Hf.
    destruct (decide (end_time y = k)); by simplify_eq.
Qed.

(** X12: the processing order [tasks_sorted] is the stable sort of the input
    by end time: it is a permutation of the input in ascending order of end
    time in which the tasks with the same end time keep their input order,
    and it is the only list with these properties. *)
Theorem processing_order_is_stable_sort (tasks : list Task) :
  sorted_by_end tasks ≡ₚ tasks
  ∧ StronglySorted end_le (sorted_by_end tasks)
  ∧ (∀ k : Z, filter (λ u, end_time u = k) (sorted_by_end tasks)
              = filter (λ u, end_time u = k) tasks)
  ∧ (∀ l : list Task, StronglySorted end_le l →
       (∀ k : Z, filter (λ u, end_time u = k) l
                 = filter (λ u, end_time u = k) tasks) →
       l = sorted_by_end tasks).
Proof.
  split_and!.
  - apply sorted_by_end_Permutation.
  - apply sorted_by_end_sorted.
  - intros k. apply sorted_by_end_stable.
  - intros l Hs Hf. apply stable_sorted_unique; [done|apply sorted_by_end_sorted|].
    intros k. by rewrite Hf, sorted_by_end_stable.
Qed.

(** X13: when the input is already in ascending order of end time, as the
    rows that [generate_schedule] reads are, and is well formed, the selected
    list is a subsequence of the input: the selected tasks appear in their
    input order. *)
Theorem selected_is_subsequence_of_sorted_input (fuel : nat) (tasks : list Task) :
  Forall well_formed tasks → StronglySorted end_le tasks →
  (length tasks < fuel)%nat →
  ∃ selected total_profit,
    weighted_interval_scheduling fuel tasks = Returned (selected, total_profit)
    ∧ selected `sublist_of` tasks.
Proof.
  intros Hwf Hs Hfuel.
  destruct (schedule_facts fuel tasks Hwf Hfuel) as (sel & tot & Hret & Hsub & _).
  exists sel, tot. split; [done|]. by rewrite (sorted_by_end_id tasks Hs) in Hsub.
Qed.

Lemma selected_is_subsequence_of_sorted_input_witness :
  let tasks := [T 1 0 5 3; T 2 1 5 3; T 3 5 9 2] in
  Forall well_formed tasks ∧ StronglySorted end_le tasks
  ∧ (length tasks < 4)%nat ∧
  ∃ selected total_profit,
    weighted_interval_scheduling 4 tasks = Returned (selected, total_profit)
    ∧ selected `sublist_of` tasks.
Proof.
  cbv zeta.
  assert (Forall well_formed [T 1 0 5 3; T 2 1 5 3; T 3 5 9 2]) as H1
    by repeat constructor.
  assert (StronglySorted end_le [T 1 0 5 3; T 2 1 5 3; T 3 5 9 2]) as H2.
  { repeat constructor; unfold end_le; simpl; lia. }
  assert (length [T 1 0 5 3; T 2 1 5 3; T 3 5 9 2] < 4)%nat as H3
    by (simpl; lia).
  split_and!; [done..|].
  exact (selected_is_subsequence_of_sorted_input 4 _ H1 H2 H3).
Defined.

(** * The task store and the handlers *)

(** ** The statements *)

Ltac http_inj H := cbv [mret http_ret] in H; simplify_eq.

Lemma sql_int_Responded (z z' : Z) :
  sql_int z = Responded z' → z' = z ∧ - 2 ^ 63 ≤ z < 2 ^ 63.
Proof.
  unfold sql_int. destruct (decide _) as [Hz|]; intros H; [|done].
  inversion H; subst. split; [reflexivity|exact Hz].
Qed.

Lemma sql_int_fits (z : Z) : - 2 ^ 63 ≤ z < 2 ^ 63 → sql_int z = Responded z.
Proof. intros Hz. unfold sql_int. by destruct (decide _). Qed.

Lemma max_id_nonneg (rs : list Row) : 0 ≤ max_id rs.
Proof. induction rs as [|r rs IH]; simpl; lia. Qed.

Lemma max_id_ge (rs : list Row) (r : Row) : r ∈ rs → row_id r ≤ max_id rs.
Proof.
  induction rs as [|r' rs IH]; intros Hr; [by apply elem_of_nil in Hr|].
  apply elem_of_cons in Hr as [->|Hr]; simpl; [lia|].
  specialize (IH Hr). lia.
Qed.

(** What [INSERT] does when it succeeds. *)
Lemma sql_insert_Responded (name : string) (s e w : Z) (db db' : Table) :
  sql_insert name s e w db = Responded db' →
  ∃ new_id,
    db' = mkTable (table_rows db ++ [mkRow new_id name s e w]) new_id
    ∧ max_id (table_rows db) < new_id ∧ table_seq db < new_id
    ∧ 0 < new_id < 2 ^ 63.
Proof.
  unfold sql_insert. intros H.
  destruct (sql_int s) as [?| | | |]; try done.
  destruct (sql_int e) as [?| | | |]; try done.
  destruct (sql_int w) as [?| | | |]; try done.
  simpl in H. destruct (decide _) as [Hlt|]; [|done]. http_inj H.
  eexists. split; [reflexivity|].
  pose proof (max_id_nonneg (table_rows db)). lia.
Qed.

Lemma sql_update_Responded (name : string) (s e w i : Z) (db db' : Table) :
  sql_update name s e w i db = Responded db' →
  db' = mkTable ((λ r, if decide (row_id r = i)
                       then mkRow (row_id r) name s e w else r)
                 <$> table_rows db) (table_seq db).
Proof.
  unfold sql_update. intros H.
  destruct (sql_int s) as [?| | | |]; try done.
  destruct (sql_int e) as [?| | | |]; try done.
  destruct (sql_int w) as [?| | | |]; try done.
  destruct (sql_int i) as [?| | | |]; try done.
  simpl in H. by http_inj H.
Qed.

Lemma sql_delete_Responded (i : Z) (db db' : Table) :
  sql_delete i db = Responded db' →
  db' = mkTable (filter (λ r, row_id r ≠ i) (table_rows db)) (table_seq db)
  ∧ - 2 ^ 63 ≤ i < 2 ^ 63.
Proof.
  unfold sql_delete. intros H.
  destruct (sql_int i) as [?| | | |] eqn:Hi; try done.
  apply sql_int_Responded in Hi as [_ Hi]. simpl in H. by http_inj H.
Qed.

Lemma sql_select_by_id_Responded (i : Z) (db : Table) (found : option Row) :
  sql_select_by_id i db = Responded found →
  found = head (filter (λ r, row_id r = i) (table_rows db)).
Proof.
  unfold sql_select_by_id. intros H.
  destruct (sql_int i) as [?| | | |]; try done. simpl in H. by http_inj H.
Qed.

Section handlers_verified.
Variable py_int : string → option Z.
Variable py_strip : string → string.

(** ** What each handler does to the table *)

Lemma form_int_Responded (form : gmap string string) (key : string) (z : Z) :
  form_int py_int form key = Responded z →
  ∃ v, form !! key = Some v ∧ py_int v = Some z.
Proof.
  unfold form_int, form_field. intros H.
  destruct (form !! key) as [v|]; [|done]. simpl in H.
  destruct (py_int v) as [z'|] eqn:Hz; [|done]. http_inj H. by exists v.
Qed.

Lemma add_task_effect (method : string) (form : gmap string string)
    (db db' : Table) (resp : response) :
  add_task py_int py_strip method form db = Responded (db', resp) →
  (db' = db ∧ ∀ flashed target, resp = redirect flashed target →
                 flashed.2 = "danger")
  ∨ ∃ raw_name s e w new_id,
      form !! "name" = Some raw_name
      ∧ form_int py_int form "start_time" = Responded s
      ∧ form_int py_int form "end_time" = Responded e
      ∧ form_int py_int form "profit" = Responded w
      ∧ s < e
      ∧ db' = mkTable (table_rows db ++ [mkRow new_id (py_strip raw_name) s e w])
                      new_id
      ∧ max_id (table_rows db) < new_id ∧ table_seq db < new_id
      ∧ 0 < new_id < 2 ^ 63
      ∧ resp = redirect ("Task added successfully.", "success") url_view_tasks.
Proof.
  unfold add_task. intros H.
  destruct (decide (method = "POST")) as [Hpost|Hget].
  2:{ left. http_inj H. split; [done|]. intros ?? Heq. by simplify_eq. }
  unfold form_field in H at 1.
  destruct (form !! "name") as [raw_name|] eqn:Hname; [|done]. simpl in H.
  destruct (form_int py_int form "start_time") as [s| | | |] eqn:Hs; try done.
  destruct (form_int py_int form "end_time") as [e| | | |] eqn:He; try done.
  destruct (form_int py_int form "profit") as [w| | | |] eqn:Hw; try done.
  simpl in H. destruct (decide (e ≤ s)) as [Hle|Hgt].
  { left. http_inj H. split; [done|]. intros ?? Heq. by simplify_eq. }
  destruct (sql_insert (py_strip raw_name) s e w db) as [db''| | | |] eqn:Hins;
    try done.
  simpl in H. http_inj H.
  apply sql_insert_Responded in Hins as (new_id & -> & ? & ? & ?).
  right. exists raw_name, s, e, w, new_id. split_and!; try done; lia.
Qed.

Lemma edit_task_effect (task_id : Z) (method : string)
    (form : gmap string string) (db db' : Table) (resp : response) :
  edit_task py_int py_strip task_id method form db = Responded (db', resp) →
  (db' = db ∧ resp ≠ redirect ("Task updated successfully.", "success")
                              url_view_tasks)
  ∨ ∃ task raw_name s e w,
      head (filter (λ r, row_id r = task_id) (table_rows db)) = Some task
      ∧ form !! "name" = Some raw_name
      ∧ form_int py_int form "start_time" = Responded s
      ∧ form_int py_int form "end_time" = Responded e
      ∧ form_int py_int form "profit" = Responded w
      ∧ s < e
      ∧ db' = mkTable ((λ r, if decide (row_id r = task_id)
                             then mkRow (row_id r) (py_strip raw_name) s e w
                             else r) <$> table_rows db) (table_seq db)
      ∧ resp = redirect ("Task updated successfully.", "success") url_view_tasks.
Proof.
  unfold edit_task. intros H.
  destruct (sql_select_by_id task_id db) as [found| | | |] eqn:Hsel; try done.
  apply sql_select_by_id_Responded in Hsel. simpl in H.
  destruct found as [task|]; [|left; http_inj H; by split].
  destruct (decide (method = "POST")) as [Hpost|Hget];
    [|left; http_inj H; by split].
  unfold form_field in H at 1.
  destruct (form !! "name") as [raw_name|] eqn:Hname; [|done]. simpl in H.
  destruct (form_int py_int form "start_time") as [s| | | |] eqn:Hs; try done.
  destruct (form_int py_int form "end_time") as [e| | | |] eqn:He; try done.
  destruct (form_int py_int form "profit") as [w| | | |] eqn:Hw; try done.
  simpl in H. destruct (decide (e ≤ s)) as [Hle|Hgt].
  { left. http_inj H. by split. }
  destruct (sql_update (py_strip raw_name) s e w task_id db)
    as [db''| | | |] eqn:Hupd; try done.
  simpl in H. http_inj H. apply sql_update_Responded in Hupd as ->.
  right. exists task, raw_name, s, e, w. split_and!; try done; lia.
Qed.

Lemma delete_task_effect (task_id : Z) (db db' : Table) (resp : response) :
  delete_task task_id db = Responded (db', resp) →
  db' = mkTable (filter (λ r, row_id r ≠ task_id) (table_rows db)) (table_seq db)
  ∧ - 2 ^ 63 ≤ task_id < 2 ^ 63
  ∧ resp = redirect ("Task deleted successfully.", "success") url_view_tasks.
Proof.
  unfold delete_task. intros H.
  destruct (sql_delete task_id db) as [db''| | | |] eqn:Hdel; try done.
  simpl in H. http_inj H. by apply sql_delete_Responded in Hdel as [-> ?].
Qed.

(** ** Invariants of the table *)

Lemma serve_invariant (P : Table → Prop) (reqs : list request) (db : Table) :
  (∀ req db, P db → P (table_after py_int py_strip req db)) →
  P db → P (serve py_int py_strip reqs db).
Proof.
  intros Hstep. revert db. induction reqs as [|req reqs IH]; intros db Hdb;
    [done|].
  simpl. apply IH. by apply Hstep.
Qed.

Lemma table_after_cases (req : request) (db : Table) :
  table_after py_int py_strip req db = db
  ∨ (∃ r, table_rows (table_after py_int py_strip req db) = table_rows db ++ [r]
          ∧ row_ok r ∧ max_id (table_rows db) < row_id r)
  ∨ (∃ name s e w task_id, s < e
       ∧ table_rows (table_after py_int py_strip req db)
         = (λ r, if decide (row_id r = task_id)
                 then mkRow (row_id r) name s e w else r) <$> table_rows db)
  ∨ (∃ task_id, table_rows (table_after py_int py_strip req db)
                = filter (λ r, row_id r ≠ task_id) (table_rows db)).
Proof.
  unfold table_after.
  destruct (handle py_int py_strip req db) as [[db' resp]| | | |] eqn:Hh;
    [|by left..].
  destruct req as [method form|task_id method form|task_id]; simpl in Hh.
  - apply add_task_effect in Hh
      as [[-> _]|(raw & s & e & w & i & _ & _ & _ & _ & Hlt & -> & Hmax & _)];
      [by left|].
    right; left. eexists. split; [reflexivity|]. by split.
  - apply edit_task_effect in Hh
      as [[-> _]|(task & raw & s & e & w & _ & _ & _ & _ & _ & Hlt & -> & _)];
      [by left|].
    right; right; left. by exists (py_strip raw), s, e, w, task_id.
  - apply delete_task_effect in Hh as (-> & _).
    right; right; right. by exists task_id.
Qed.

Lemma table_after_rows_ok (req : request) (db : Table) :
  Forall row_ok (table_rows db) →
  Forall row_ok (table_rows (table_after py_int py_strip req db)).
Proof.
  intros Hok.
  destruct (table_after_cases req db)
    as [->|[(r & -> & Hr & _)|[(name & s & e & w & i & Hlt & ->)|(i & ->)]]].
  - done.
  - apply Forall_app. split; [done|]. by repeat constructor.
  - apply Forall_fmap. eapply Forall_impl; [exact Hok|].
    intros r Hr. simpl. by destruct (decide (row_id r = i)).
  - apply Forall_forall. intros r [_ Hr]%list_elem_of_filter.
    rewrite Forall_forall in Hok. by apply Hok.
Qed.

Lemma table_after_ids_unique (req : request) (db : Table) :
  NoDup (row_id <$> table_rows db) →
  NoDup (row_id <$> table_rows (table_after py_int py_strip req db)).
Proof.
  intros Hnd.
  destruct (table_after_cases req db)
    as [->|[(r & -> & _ & Hr)|[(name & s & e & w & i & _ & ->)|(i & ->)]]].
  - done.
  - rewrite fmap_app. apply NoDup_app. split_and!; [done| |].
    + intros x Hx Hx'. apply list_elem_of_fmap in Hx as (r' & -> & Hr').
      apply list_elem_of_singleton in Hx'. simpl in Hx'.
      pose proof (max_id_ge _ _ Hr'). lia.
    + simpl. apply NoDup_singleton.
  - rewrite <-list_fmap_compose.
    erewrite (list_fmap_ext _ row_id); [done|]. intros ? r. simpl.
    by destruct (decide (row_id r = i)).
  - apply (sublist_NoDup _ (row_id <$> table_rows db)); [exact Hnd|].
    apply fmap_sublist, sublist_filter.
Qed.

Lemma serve_rows_ok (reqs : list request) (db : Table) :
  Forall row_ok (table_rows db) →
  Forall row_ok (table_rows (serve py_int py_strip reqs db)).
Proof.
  apply (serve_invariant (λ db, Forall row_ok (table_rows db))).
  intros req db'. apply table_after_rows_ok.
Qed.

Lemma serve_ids_unique (reqs : list request) (db : Table) :
  NoDup (row_id <$> table_rows db) →
  NoDup (row_id <$> table_rows (serve py_int py_strip reqs db)).
Proof.
  apply (serve_invariant (λ db, NoDup (row_id <$> table_rows db))).
  intros req db'. apply table_after_ids_unique.
Qed.
End handlers_verified.

(** ** Properties of the handlers *)




Lemma filter_filter_out (i : Z) (rows : list Row) :
  filter (λ r, row_id r = i) (filter (λ r, row_id r ≠ i) rows) = [].
Proof.
  induction rows as [|r rows IH]; [done|]. rewrite filter_cons.
  destruct (decide (row_id r ≠ i)) as [Hne|]; [|done].
  rewrite filter_cons. by destruct (decide (row_id r = i)).
Qed.

Lemma filter_below_max (i : Z) (rows : list Row) :
  max_id rows < i → filter (λ r, row_id r = i) rows = [].
Proof.
  induction rows as [|r rows IH]; intros Hi; [done|]. simpl in Hi.
  rewrite filter_cons. destruct (decide (row_id r = i)); [lia|].
  apply IH. lia.
Qed.

Section handler_properties.
Variable py_int : string → option Z.
Variable py_strip : string → string.

(** X14: whatever requests are served, every stored task keeps
    [start_time < end_time]: if all rows of the table are valid before a
    sequence of add, edit and delete requests (failed ones included), all
    rows are valid after it. *)
Theorem stored_rows_stay_valid (reqs : list request) (db : Table) :
  Forall row_ok (table_rows db) →
  Forall row_ok (table_rows (serve py_int py_strip reqs db)).
Proof. apply serve_rows_ok. Qed.

(** X15: whatever requests are served, the ids of the stored tasks stay
    pairwise distinct. *)
Theorem stored_ids_stay_unique (reqs : list request) (db : Table) :
  NoDup (row_id <$> table_rows db) →
  NoDup (row_id <$> table_rows (serve py_int py_strip reqs db)).
Proof. apply serve_ids_unique. Qed.


(** X17: [add_task] either leaves the table as it is or appends exactly one
    row: the row carries the stripped name and the integers of the form, it
    starts before it ends, and its id is greater than every id in the
    table. *)
Theorem add_task_appends_one_valid_row (method : string)
    (form : gmap string string) (db db' : Table) (resp : response) :
  add_task py_int py_strip method form db = Responded (db', resp) →
  db' = db
  ∨ ∃ r raw_name,
      table_rows db' = table_rows db ++ [r]
      ∧ form !! "name" = Some raw_name ∧ row_name r = py_strip raw_name
      ∧ form_int py_int form "start_time" = Responded (row_start_time r)
      ∧ form_int py_int form "end_time" = Responded (row_end_time r)
      ∧ form_int py_int form "profit" = Responded (row_profit r)
      ∧ row_start_time r < row_end_time r
      ∧ (∀ r', r' ∈ table_rows db → row_id r' < row_id r).
Proof.
  intros [[-> _]|(raw & s & e & w & i & Hn & Hs & He & Hw & Hlt & -> & Hmax & _)]
    %add_task_effect; [by left|].
  right. exists (mkRow i (py_strip raw) s e w), raw. simpl.
  split_and!; try done.
  intros r' Hr'. pose proof (max_id_ge _ _ Hr'). lia.
Qed.

(** X18: a form whose end time is not after its start time is rejected:
    [add_task], and [edit_task] for an existing task, answer a POST of such
    a form with the "danger" message and leave the table unchanged. *)
Theorem invalid_interval_rejected (form : gmap string string) (db : Table)
    (task : Row) (raw_name : string) (s e w : Z) :
  form !! "name" = Some raw_name →
  form_int py_int form "start_time" = Responded s →
  form_int py_int form "end_time" = Responded e →
  form_int py_int form "profit" = Responded w →
  e ≤ s →
  add_task py_int py_strip "POST" form db
    = Responded (db, redirect
        ("End time must be greater than start time.", "danger") url_add_task)
  ∧ (sql_select_by_id (row_id task) db = Responded (Some task) →
     edit_task py_int py_strip (row_id task) "POST" form db
       = Responded (db, redirect
           ("End time must be greater than start time.", "danger")
           (url_edit_task (row_id task)))).
Proof.
  intros Hn Hs He Hw Hle. split.
  - unfold add_task. destruct (decide ("POST" = "POST")); [|done].
    unfold form_field at 1. rewrite Hn. simpl. rewrite Hs. simpl.
    rewrite He. simpl. rewrite Hw. simpl. by destruct (decide (e ≤ s)).
  - intros Hsel. unfold edit_task. rewrite Hsel. simpl.
    destruct (decide ("POST" = "POST")); [|done].
    unfold form_field at 1. rewrite Hn. simpl. rewrite Hs. simpl.
    rewrite He. simpl. rewrite Hw. simpl. by destruct (decide (e ≤ s)).
Qed.


(** X20: a deleted task is gone: after [delete_task] succeeds no row has the
    id, the other rows are kept in order, deleting the id again changes
    nothing, and [edit_task] on it answers "Task not found." without touching
    the table, whatever the method and the form. *)
Theorem deleted_task_not_found (task_id : Z) (method : string)
    (form : gmap string string) (db db' : Table) (resp : response) :
  delete_task task_id db = Responded (db', resp) →
  table_rows db' = filter (λ r, row_id r ≠ task_id) (table_rows db)
  ∧ (∀ r, r ∈ table_rows db' → row_id r ≠ task_id)
  ∧ delete_task task_id db' = Responded (db', resp)
  ∧ edit_task py_int py_strip task_id method form db'
    = Responded (db', redirect ("Task not found.", "warning") url_view_tasks).
Proof.
  intros (-> & Hfit & ->)%delete_task_effect. simpl. split_and!.
  - done.
  - by intros r [? _]%list_elem_of_filter.
  - unfold delete_task, sql_delete. rewrite (sql_int_fits _ Hfit). simpl.
    rewrite filter_Forall_id; [done|].
    apply Forall_forall. by intros r [? _]%list_elem_of_filter.
  - unfold edit_task, sql_select_by_id. rewrite (sql_int_fits _ Hfit). simpl.
    by rewrite filter_filter_out.
Qed.

(** X21: a task that was just added can be edited: after a successful
    [add_task] the new row is the last of the table, and a request to
    [edit_task] with its id and a method other than POST renders the edit
    form with exactly that row. *)
Theorem added_task_can_be_edited (method method' : string)
    (form form' : gmap string string) (db db' : Table) :
  add_task py_int py_strip method form db
    = Responded (db', redirect ("Task added successfully.", "success")
                               url_view_tasks) →
  method' ≠ "POST" →
  ∃ r, table_rows db' = table_rows db ++ [r]
       ∧ edit_task py_int py_strip (row_id r) method' form' db'
         = Responded (db', render_form (Some r) (url_edit_task (row_id r))
                                       "Edit Task").
Proof.
  intros Hadd Hget.
  apply add_task_effect in Hadd
    as [[_ Hd]|(raw & s & e & w & i & _ & _ & _ & _ & _ & -> & Hmax & _ & Hi & _)].
  { specialize (Hd _ _ eq_refl). done. }
  eexists. split; [reflexivity|]. simpl.
  unfold edit_task, sql_select_by_id. rewrite sql_int_fits by lia. simpl.
  rewrite filter_app, (filter_below_max i _ Hmax), filter_cons. simpl.
  destruct (decide (i = i)); [|done]. simpl.
  by destruct (decide (method' = "POST")).
Qed.

End handler_properties.

(** ** The handlers on sample requests *)

Lemma demo_add_task :
  add_task demo_int demo_strip "POST" demo_form (init_db None)
  = Responded (demo_table,
               redirect ("Task added successfully.", "success") url_view_tasks).
Proof. vm_compute. reflexivity. Defined.




Lemma stored_rows_stay_valid_witness :
  Forall row_ok (table_rows (init_db None))
  ∧ Forall row_ok
      (table_rows (serve demo_int demo_strip
         [AddTask "POST" demo_form; EditTask 1 "POST" late_form; DeleteTask 7]
         (init_db None))).
Proof.
  assert (Forall row_ok (table_rows (init_db None))) as H by constructor.
  split; [exact H|].
  exact (stored_rows_stay_valid demo_int demo_strip _ (init_db None) H).
Defined.

Lemma stored_ids_stay_unique_witness :
  NoDup (row_id <$> table_rows (init_db None))
  ∧ NoDup (row_id <$> table_rows (serve demo_int demo_strip
             [AddTask "POST" demo_form; AddTask "POST" demo_form; DeleteTask 1]
             (init_db None))).
Proof.
  assert (NoDup (row_id <$> table_rows (init_db None))) as H by constructor.
  split; [exact H|].
  exact (stored_ids_stay_unique demo_int demo_strip _ (init_db None) H).
Defined.


Lemma add_task_appends_one_valid_row_witness :
  add_task demo_int demo_strip "POST" demo_form (init_db None)
    = Responded (demo_table,
        redirect ("Task added successfully.", "success") url_view_tasks)
  ∧ (demo_table = init_db None
     ∨ ∃ r raw_name,
         table_rows demo_table = table_rows (init_db None) ++ [r]
         ∧ demo_form !! "name" = Some raw_name
         ∧ row_name r = demo_strip raw_name
         ∧ form_int demo_int demo_form "start_time"
           = Responded (row_start_time r)
         ∧ form_int demo_int demo_form "end_time" = Responded (row_end_time r)
         ∧ form_int demo_int demo_form "profit" = Responded (row_profit r)
         ∧ row_start_time r < row_end_time r
         ∧ (∀ r', r' ∈ table_rows (init_db None) → row_id r' < row_id r)).
Proof.
  split; [exact demo_add_task|].
  exact (add_task_appends_one_valid_row demo_int demo_strip _ _ _ _ _
           demo_add_task).
Defined.

Lemma invalid_interval_rejected_witness :
  late_form !! "name" = Some "review"
  ∧ form_int demo_int late_form "start_time" = Responded 3
  ∧ form_int demo_int late_form "end_time" = Responded 1
  ∧ form_int demo_int late_form "profit" = Responded 2
  ∧ 1 ≤ 3
  ∧ sql_select_by_id (row_id demo_row) demo_table = Responded (Some demo_row)
  ∧ add_task demo_int demo_strip "POST" late_form demo_table
    = Responded (demo_table, redirect
        ("End time must be greater than start time.", "danger") url_add_task)
  ∧ (sql_select_by_id (row_id demo_row) demo_table = Responded (Some demo_row) →
     edit_task demo_int demo_strip (row_id demo_row) "POST" late_form demo_table
       = Responded (demo_table, redirect
           ("End time must be greater than start time.", "danger")
           (url_edit_task (row_id demo_row)))).
Proof.
  assert (late_form !! "name" = Some "review") as H1
    by (vm_compute; reflexivity).
  assert (form_int demo_int late_form "start_time" = Responded 3) as H2
    by (vm_compute; reflexivity).
  assert (form_int demo_int late_form "end_time" = Responded 1) as H3
    by (vm_compute; reflexivity).
  assert (form_int demo_int late_form "profit" = Responded 2) as H4
    by (vm_compute; reflexivity).
  assert (1 ≤ 3) as H5 by lia.
  split; [exact H1|]. split; [exact H2|]. split; [exact H3|].
  split; [exact H4|]. split; [exact H5|].
  split; [vm_compute; reflexivity|].
  exact (invalid_interval_rejected demo_int demo_strip late_form demo_table
           demo_row "review" 3 1 2 H1 H2 H3 H4 H5).
Defined.



Lemma demo_delete_task :
  delete_task 1 demo_table
  = Responded (mkTable [] 1,
      redirect ("Task deleted successfully.", "success") url_view_tasks).
Proof. vm_compute. reflexivity. Defined.

Lemma deleted_task_not_found_witness :
  delete_task 1 demo_table
    = Responded (mkTable [] 1,
        redirect ("Task deleted successfully.", "success") url_view_tasks)
  ∧ table_rows (mkTable [] 1)
    = filter (λ r, row_id r ≠ 1) (table_rows demo_table)
  ∧ (∀ r, r ∈ table_rows (mkTable [] 1) → row_id r ≠ 1)
  ∧ delete_task 1 (mkTable [] 1)
    = Responded (mkTable [] 1,
        redirect ("Task deleted successfully.", "success") url_view_tasks)
  ∧ edit_task demo_int demo_strip 1 "POST" demo_form (mkTable [] 1)
    = Responded (mkTable [] 1,
        redirect ("Task not found.", "warning") url_view_tasks).
Proof.
  split; [exact demo_delete_task|].
  exact (deleted_task_not_found demo_int demo_strip 1 "POST" demo_form _ _ _
           demo_delete_task).
Defined.

Lemma added_task_can_be_edited_witness :
  add_task demo_int demo_strip "POST" demo_form (init_db None)
    = Responded (demo_table,
        redirect ("Task added successfully.", "success") url_view_tasks)
  ∧ "GET" ≠ "POST"
  ∧ ∃ r, table_rows demo_table = table_rows (init_db None) ++ [r]
         ∧ edit_task demo_int demo_strip (row_id r) "GET" demo_form demo_table
           = Responded (demo_table,
               render_form (Some r) (url_edit_task (row_id r)) "Edit Task").
Proof.
  assert ("GET" ≠ "POST") as Hget by discriminate.
  split; [exact demo_add_task|]. split; [exact Hget|].
  exact (added_task_can_be_edited demo_int demo_strip "POST" "GET" demo_form
           demo_form (init_db None) demo_table demo_add_task Hget).
Defined.

